(** * FVP: wire codec, key registry, peer table and packet pumps

    A shallow embedding of the Go packages [internal/protocol],
    [internal/crypto] and [internal/server] of the FVP tunnel, together with
    the properties of its datapath.

    Conventions.
    - Go's [uint8]/[byte] is [Byte.byte]; [[]byte] is [list byte].
    - [uint16] and [uint32] values are integers in [Z]; every conversion and
      every arithmetic operation that can wrap is written with its modulus.
    - Go maps are [gmap]s; a [*Client] stored in the client map is the map
      entry itself (the only alias the server keeps).
    - [time.Now()] is an explicit argument (nanoseconds as [Z]).
    - A Go [error] is a value of the inductive [error]; a function returning
      [(T, error)] returns [T + error]. *)

From Stdlib Require Import ZArith Lia List Ascii String.
From Stdlib.Strings Require Import Byte.
From stdpp Require Import gmap strings list pretty.

Local Open Scope Z_scope.

(** ** Machine integers and bytes *)

Definition byte_to_Z (b : byte) : Z := Z.of_N (Byte.to_N b).

(** [byte(n)]: conversion of an integer to a byte keeps the low 8 bits. *)
Definition Z_to_byte (n : Z) : byte :=
  default x00 (Byte.of_N (Z.to_N (n mod 256))).

Definition uint16 (n : Z) : Z := n mod 2 ^ 16.
Definition uint32 (n : Z) : Z := n mod 2 ^ 32.

Definition is_uint16 (n : Z) : Prop := 0 <= n < 2 ^ 16.
Definition is_uint32 (n : Z) : Prop := 0 <= n < 2 ^ 32.

(** [len(b)] as an integer. *)
Definition len {A} (l : list A) : Z := Z.of_nat (length l).

#[global] Instance byte_eq_decision : EqDecision byte := Byte.byte_eq_dec.

#[global] Instance byte_countable : Countable byte :=
  inj_countable Byte.to_N Byte.of_N Byte.of_to_N.

(** ** Errors of the three packages *)

Inductive error : Type :=
  (* protocol *)
  | ErrPacketTooShort
  | ErrInvalidMagic
  | ErrUnsupportedVersion
  | ErrInvalidPacketType
  | ErrLengthMismatch
  | ErrInvalidVersionFormat
  | ErrVersionLimit
  (* crypto *)
  | ErrInvalidKeyLength
  | ErrDecryptionFailed
  | ErrKeyNotFound
  | ErrReadConfig
  | ErrParseConfig
  | ErrInvalidHexKey
  | ErrKeyNot32Bytes
  (* server *)
  | ErrClientNotFound
  | ErrClientAlreadyExists
  | ErrMaxClientsReached
  | ErrNoIPAvailable
  | ErrInvalidSequence
  | ErrIPHeaderTooShort
  | ErrNoClientForIP
  | ErrResolveAddress
  | ErrUDPWrite
  (* network *)
  | ErrTunNotCreated
  | ErrTunNoPackets.

#[global] Instance error_eq_decision : EqDecision error.
Proof. solve_decision. Defined.

(** ** Package protocol *)

Module protocol.

Record Packet : Type := mkPacket {
  Magic : byte * byte * byte;
  Type_ : byte;
  ClientID : byte;
  Sequence : Z;      (* uint32 *)
  Length : Z;        (* uint16 *)
  Version : byte;
  Payload : list byte
}.

Definition MagicBytes : byte * byte * byte := ("F"%byte, "V"%byte, "P"%byte).
Definition HeaderSize : Z := 12.

Definition PacketTypeData : Z := 1.
Definition PacketTypeAuth : Z := 2.
Definition PacketTypePing : Z := 3.
Definition PacketTypePong : Z := 4.

(** The fields of Go type [uint32]/[uint16] hold values of that type. *)
Definition Packet_typed (p : Packet) : Prop :=
  is_uint32 (Sequence p) /\ is_uint16 (Length p).

(** [binary.LittleEndian] *)
Definition PutUint32 (v : Z) : list byte :=
  [Z_to_byte v; Z_to_byte (Z.shiftr v 8);
   Z_to_byte (Z.shiftr v 16); Z_to_byte (Z.shiftr v 24)].

Definition PutUint16 (v : Z) : list byte :=
  [Z_to_byte v; Z_to_byte (Z.shiftr v 8)].

Definition Uint32 (b0 b1 b2 b3 : byte) : Z :=
  Z.lor (byte_to_Z b0)
    (Z.lor (Z.shiftl (byte_to_Z b1) 8)
       (Z.lor (Z.shiftl (byte_to_Z b2) 16) (Z.shiftl (byte_to_Z b3) 24))).

Definition Uint16 (b0 b1 : byte) : Z :=
  Z.lor (byte_to_Z b0) (Z.shiftl (byte_to_Z b1) 8).

(** [ParsePacket]: the pattern needs twelve header bytes, which is the
    source's [len(data) < HeaderSize] test; the payload is [data[12:]]. *)
Definition ParsePacket (data : list byte) : Packet + error :=
  match data with
  | m0 :: m1 :: m2 :: t :: c :: s0 :: s1 :: s2 :: s3 :: l0 :: l1 :: v :: rest =>
      inl {| Magic := (m0, m1, m2);
             Type_ := t;
             ClientID := c;
             Sequence := Uint32 s0 s1 s2 s3;
             Length := Uint16 l0 l1;
             Version := v;
             Payload := rest |}
  | _ => inr ErrPacketTooShort
  end.

(** [EncodePacket]: its error result is always [nil], so the model returns
    the buffer alone. *)
Definition EncodePacket (p : Packet) : list byte :=
  let '(m0, m1, m2) := Magic p in
  [m0; m1; m2; Type_ p; ClientID p]
    ++ PutUint32 (Sequence p)
    ++ PutUint16 (Length p)
    ++ [Version p]
    ++ Payload p.

(** *** The package-level version variables and their initialisation *)

Record VersionVars : Type := mkVersionVars {
  ProtocolVersionMajor : Z;
  ProtocolVersionMinor : Z;
  ProtocolVersionPatch : Z;
  ProtocolVersionByte : byte
}.

(** The initial values of the four [var]s. *)
Definition VersionVars_init : VersionVars :=
  {| ProtocolVersionMajor := 1;
     ProtocolVersionMinor := 0;
     ProtocolVersionPatch := 0;
     ProtocolVersionByte := x00 |}.

Definition encodeVersion (major minor patch : Z) : byte :=
  Z_to_byte (Z.lor (Z.shiftl minor 3) patch).

(** [strings.Split(s, ".")] *)
Fixpoint Split_dot (s : string) : list string :=
  match s with
  | EmptyString => [EmptyString]
  | String c r =>
      if Ascii.eqb c "."%char then EmptyString :: Split_dot r
      else match Split_dot r with
           | [] => [String c EmptyString]
           | h :: t => String c h :: t
           end
  end.

Definition digit (c : ascii) : option Z :=
  let n := Z.of_N (Ascii.N_of_ascii c) in
  if (48 <=? n) && (n <=? 57) then Some (n - 48) else None.

Fixpoint digits (s : string) (acc : Z) : option Z :=
  match s with
  | EmptyString => Some acc
  | String c r =>
      match digit c with
      | Some d => digits r (10 * acc + d)
      | None => None
      end
  end.

(** [strconv.Atoi]: optional sign, at least one decimal digit, and a value
    that fits Go's 64-bit [int]. *)
Definition Atoi (s : string) : option Z :=
  let '(neg, body) :=
    match s with
    | String c r =>
        if Ascii.eqb c "-"%char then (true, r)
        else if Ascii.eqb c "+"%char then (false, r)
        else (false, s)
    | EmptyString => (false, s)
    end in
  match body with
  | EmptyString => None
  | _ =>
      match digits body 0 with
      | Some n =>
          let v := if neg then - n else n in
          if (- 2 ^ 63 <=? v) && (v <? 2 ^ 63) then Some v else None
      | None => None
      end
  end.

Definition InitProtocolVersion (version : string) (g : VersionVars)
  : option error * VersionVars :=
  if decide (version = EmptyString) then
    (None, {| ProtocolVersionMajor := 1;
              ProtocolVersionMinor := 0;
              ProtocolVersionPatch := 0;
              ProtocolVersionByte := encodeVersion 1 0 0 |})
  else
    match Split_dot version with
    | p0 :: p1 :: p2 :: _ =>
        match Atoi p0 with
        | None => (Some ErrInvalidVersionFormat, g)
        | Some major =>
        match Atoi p1 with
        | None => (Some ErrInvalidVersionFormat, g)
        | Some minor =>
        match Atoi p2 with
        | None => (Some ErrInvalidVersionFormat, g)
        | Some patch =>
            if negb (major =? 1) then (Some ErrVersionLimit, g)
            else if minor >? 31 then (Some ErrVersionLimit, g)
            else if patch >? 7 then (Some ErrVersionLimit, g)
            else
              (None, {| ProtocolVersionMajor := major;
                        ProtocolVersionMinor := minor;
                        ProtocolVersionPatch := patch;
                        ProtocolVersionByte :=
                          encodeVersion major minor patch |})
        end end end
    | _ => (Some ErrInvalidVersionFormat, g)
    end.

(** The values the version variables can hold during a run: the initial
    ones, or those left by any number of calls of [InitProtocolVersion]. *)
Inductive VersionVars_reachable : VersionVars -> Prop :=
  | reach_init : VersionVars_reachable VersionVars_init
  | reach_Init v g :
      VersionVars_reachable g ->
      VersionVars_reachable (snd (InitProtocolVersion v g)).

(** *** validation.go *)

Definition parseVersion (version : byte) : Z * Z * Z :=
  let major := 1 in
  let minor := Z.shiftr (byte_to_Z version) 3 in
  let patch := Z.land (byte_to_Z version) 7 in
  (major, minor, patch).

Definition ValidateMagic (g : VersionVars) (p : Packet) : option error :=
  if decide (Magic p = MagicBytes) then None else Some ErrInvalidMagic.

Definition ValidateVersion (g : VersionVars) (p : Packet) : option error :=
  let '(major, _, _) := parseVersion (Version p) in
  if negb (major =? ProtocolVersionMajor g) then Some ErrUnsupportedVersion
  else None.

Definition ValidateType (g : VersionVars) (p : Packet) : option error :=
  if (byte_to_Z (Type_ p) <? PacketTypeData)
     || (byte_to_Z (Type_ p) >? PacketTypePong)
  then Some ErrInvalidPacketType else None.

Definition ValidateLength (g : VersionVars) (p : Packet) : option error :=
  if negb (Length p =? uint16 (len (Payload p))) then Some ErrLengthMismatch
  else None.

(** The loop over the slice of validators: the first error is returned. *)
Fixpoint run_validators (vs : list (VersionVars -> Packet -> option error))
    (g : VersionVars) (p : Packet) : option error :=
  match vs with
  | [] => None
  | validate :: rest =>
      match validate g p with
      | Some err => Some err
      | None => run_validators rest g p
      end
  end.

Definition ValidatePacket (g : VersionVars) (p : Packet) : option error :=
  run_validators
    [ValidateMagic; ValidateVersion; ValidateType; ValidateLength] g p.

Definition DecodePacket (g : VersionVars) (data : list byte)
  : Packet + error :=
  match ParsePacket data with
  | inr err => inr err
  | inl packet =>
      match ValidatePacket g packet with
      | Some err => inr err
      | None => inl packet
      end
  end.

(** *** Packet constructors *)

Definition CreateDataPacket (g : VersionVars) (clientID : byte)
    (sequence : Z) (payload : list byte) : Packet :=
  {| Magic := MagicBytes;
     Type_ := Z_to_byte PacketTypeData;
     ClientID := clientID;
     Sequence := sequence;
     Length := uint16 (len payload);
     Version := ProtocolVersionByte g;
     Payload := payload |}.

End protocol.

(** ** Package crypto *)

Module crypto.

(** *** encoding/hex, as used by keys.go *)

Definition fromHexChar (c : byte) : option Z :=
  let n := byte_to_Z c in
  if (48 <=? n) && (n <=? 57) then Some (n - 48)            (* '0'..'9' *)
  else if (97 <=? n) && (n <=? 102) then Some (n - 97 + 10) (* 'a'..'f' *)
  else if (65 <=? n) && (n <=? 70) then Some (n - 65 + 10)  (* 'A'..'F' *)
  else None.

Inductive hex_error : Type := InvalidByteError (b : byte) | ErrLength.

(** [hex.Decode]: two characters per byte; a trailing single character is
    reported as invalid if it is no hex digit and as a length error
    otherwise. *)
Fixpoint hex_Decode (src : list byte) : list byte + hex_error :=
  match src with
  | [] => inl []
  | [p] =>
      match fromHexChar p with
      | None => inr (InvalidByteError p)
      | Some _ => inr ErrLength
      end
  | p :: q :: rest =>
      match fromHexChar p with
      | None => inr (InvalidByteError p)
      | Some a =>
          match fromHexChar q with
          | None => inr (InvalidByteError q)
          | Some b =>
              match hex_Decode rest with
              | inl out => inl (Z_to_byte (Z.lor (Z.shiftl a 4) b) :: out)
              | inr e => inr e
              end
          end
      end
  end.

Definition hex_DecodeString (s : string) : list byte + hex_error :=
  hex_Decode (list_byte_of_string s).

(** *** keys.go *)

Record ClientConfig : Type := mkClientConfig {
  cfg_ID : byte;      (* ID  uint8  `yaml:"id"`  *)
  cfg_Key : string    (* Key string `yaml:"key"` *)
}.

Record Config : Type := mkConfig { Clients : list ClientConfig }.

Record KeyManager : Type := mkKeyManager { keys : gmap byte (list byte) }.

Definition NewKeyManager : KeyManager := {| keys := ∅ |}.

(** The file system and the YAML library, as seen by the loader. *)
Class ConfigIO : Type := {
  os_ReadFile : string -> option (list byte);
  yaml_Unmarshal : list byte -> option Config
}.

(** The [for _, client := range config.Clients] loop.  The map is updated
    in place, so an error leaves the entries stored so far. *)
Fixpoint load_clients (cs : list ClientConfig) (ks : gmap byte (list byte))
  : option error * gmap byte (list byte) :=
  match cs with
  | [] => (None, ks)
  | client :: rest =>
      match hex_DecodeString (cfg_Key client) with
      | inr _ => (Some ErrInvalidHexKey, ks)
      | inl key =>
          if negb (len key =? 32) then (Some ErrKeyNot32Bytes, ks)
          else load_clients rest (<[cfg_ID client := key]> ks)
      end
  end.

Definition LoadKeysFromConfig `{ConfigIO} (configPath : string)
    (km : KeyManager) : option error * KeyManager :=
  match os_ReadFile configPath with
  | None => (Some ErrReadConfig, km)
  | Some data =>
      match yaml_Unmarshal data with
      | None => (Some ErrParseConfig, km)
      | Some config =>
          let '(err, ks) := load_clients (Clients config) ∅ in
          (err, {| keys := ks |})
      end
  end.

Definition GetClientKey (km : KeyManager) (clientID : byte)
  : list byte + error :=
  match keys km !! clientID with
  | None => inr ErrKeyNotFound
  | Some key => inl key
  end.

Definition HasClient (km : KeyManager) (clientID : byte) : bool :=
  bool_decide (is_Some (keys km !! clientID)).

(** *** encryption.go *)

(** [golang.org/x/crypto/chacha20poly1305]: the cipher behind the
    [cipher.AEAD] interface, here with no associated data. *)
Class AEAD : Type := {
  aead_Seal : list byte -> list byte -> list byte -> list byte;
    (* key, nonce, plaintext *)
  aead_Open : list byte -> list byte -> list byte -> option (list byte)
    (* key, nonce, ciphertext *)
}.

Definition KeySize : Z := 32.
Definition NonceSize : nat := 12.

Definition GenerateNonce (sequence : Z) : list byte :=
  [Z_to_byte sequence; Z_to_byte (Z.shiftr sequence 8);
   Z_to_byte (Z.shiftr sequence 16); Z_to_byte (Z.shiftr sequence 24)]
    ++ repeat x00 (NonceSize - 4).

(** [chacha20poly1305.New] fails exactly on a key that is not 32 bytes. *)
Definition EncryptPayload `{AEAD} (payload key : list byte) (sequence : Z)
  : list byte + error :=
  if negb (len key =? KeySize) then inr ErrInvalidKeyLength
  else inl (aead_Seal key (GenerateNonce sequence) payload).

Definition DecryptPayload `{AEAD} (encryptedPayload key : list byte)
    (sequence : Z) : list byte + error :=
  if negb (len key =? KeySize) then inr ErrInvalidKeyLength
  else match aead_Open key (GenerateNonce sequence) encryptedPayload with
       | None => inr ErrDecryptionFailed
       | Some decrypted => inl decrypted
       end.

End crypto.

(** ** Package network: the in-memory implementation of [TUNInterface] *)

Module network.

Record MockTunManager : Type := mkTun {
  created : bool;
  readQueue : list (list byte);
  writeQueue : list (list byte)
}.

Definition ReadPacket (mtm : MockTunManager)
  : (list byte + error) * MockTunManager :=
  if negb (created mtm) then (inr ErrTunNotCreated, mtm)
  else match readQueue mtm with
       | [] => (inr ErrTunNoPackets, mtm)
       | packet :: rest =>
           (inl packet, {| created := created mtm;
                           readQueue := rest;
                           writeQueue := writeQueue mtm |})
       end.

Definition WritePacket (data : list byte) (mtm : MockTunManager)
  : option error * MockTunManager :=
  if negb (created mtm) then (Some ErrTunNotCreated, mtm)
  else (None, {| created := created mtm;
                 readQueue := readQueue mtm;
                 writeQueue := writeQueue mtm ++ [data] |}).

End network.

(** ** Package server *)

Module server.
Import protocol crypto network.

(** *** client_manager.go *)

Record Client : Type := mkClient {
  ID : byte;
  IP : string;
  Key : list byte;
  Address : string;
  Connected : bool;
  LastSeen : Z;      (* time.Time, in nanoseconds *)
  LastSeq : Z        (* uint32 *)
}.

Record ClientManager : Type := mkClientManager {
  clients : gmap byte Client;
  ipToClient : gmap string byte;
  keyToClient : gmap string byte;
  timeout : Z;       (* time.Duration, in nanoseconds *)
  keyManager : KeyManager
}.

Definition Minute : Z := 60 * 1000000000.

Definition NewClientManager (km : KeyManager) : ClientManager :=
  {| clients := ∅; ipToClient := ∅; keyToClient := ∅;
     timeout := 30 * Minute; keyManager := km |}.

(** [fmt.Sprintf("%x", key)]: two lower-case hex digits per byte. *)
Definition hexdigit (n : Z) : ascii :=
  if n <? 10 then ascii_of_N (Z.to_N (48 + n))
  else ascii_of_N (Z.to_N (87 + n)).

Fixpoint Sprintf_x (key : list byte) : string :=
  match key with
  | [] => EmptyString
  | b :: rest =>
      String (hexdigit (byte_to_Z b / 16))
        (String (hexdigit (byte_to_Z b mod 16)) (Sprintf_x rest))
  end.

(** [fmt.Sprintf("10.0.0.%d", i)] *)
Definition Sprintf_ip (i : Z) : string := "10.0.0." +:+ pretty i.

(** [fmt.Sprintf("%d.%d.%d.%d", a, b, c, d)] *)
Definition Sprintf_dotted (a b c d : byte) : string :=
  pretty (byte_to_Z a) +:+ "." +:+ pretty (byte_to_Z b) +:+ "."
    +:+ pretty (byte_to_Z c) +:+ "." +:+ pretty (byte_to_Z d).

(** [for i := uint8(1); i != 0; i++]: the counter wraps from 255 to 0,
    which ends the loop; 256 iterations of fuel cover every run. *)
Fixpoint findNextClientID_loop (fuel : nat) (i : byte)
    (cl : gmap byte Client) : byte :=
  match fuel with
  | O => x00
  | S fuel' =>
      if decide (i = x00) then x00
      else match cl !! i with
           | None => i
           | Some _ =>
               findNextClientID_loop fuel' (Z_to_byte (byte_to_Z i + 1)) cl
           end
  end.

Definition findNextClientID (cm : ClientManager) : byte :=
  findNextClientID_loop 256 x01 (clients cm).

(** [for i := 2; i <= 255; i++]: [n] iterations remain, the counter is [i]. *)
Fixpoint assignNextIP_loop (n : nat) (i : Z) (m : gmap string byte)
  : string :=
  match n with
  | O => EmptyString
  | S n' =>
      let ip := Sprintf_ip i in
      match m !! ip with
      | None => ip
      | Some _ => assignNextIP_loop n' (i + 1) m
      end
  end.

Definition assignNextIP (cm : ClientManager) : string :=
  assignNextIP_loop 254 2 (ipToClient cm).

Definition AddClient (key : list byte) (address : string) (now : Z)
    (cm : ClientManager) : (Client + error) * ClientManager :=
  if 256 <=? Z.of_nat (size (clients cm)) then (inr ErrMaxClientsReached, cm)
  else
    let keyHash := Sprintf_x key in
    match keyToClient cm !! keyHash with
    | Some _ => (inr ErrClientAlreadyExists, cm)
    | None =>
        let clientID := findNextClientID cm in
        if decide (clientID = x00) then (inr ErrMaxClientsReached, cm)
        else
          let ip := assignNextIP cm in
          if decide (ip = EmptyString) then (inr ErrNoIPAvailable, cm)
          else
            let client :=
              {| ID := clientID; IP := ip; Key := key; Address := address;
                 Connected := true; LastSeen := now; LastSeq := 0 |} in
            (inl client,
             {| clients := <[clientID := client]> (clients cm);
                ipToClient := <[ip := clientID]> (ipToClient cm);
                keyToClient := <[keyHash := clientID]> (keyToClient cm);
                timeout := timeout cm;
                keyManager := keyManager cm |})
    end.

(** The three [delete] statements shared by [RemoveClient] and
    [CheckTimeouts]. *)
Definition delete_entries (clientID : byte) (client : Client)
    (cm : ClientManager) : ClientManager :=
  {| clients := delete clientID (clients cm);
     ipToClient := delete (IP client) (ipToClient cm);
     keyToClient := delete (Sprintf_x (Key client)) (keyToClient cm);
     timeout := timeout cm;
     keyManager := keyManager cm |}.

Definition RemoveClient (clientID : byte) (cm : ClientManager)
  : option error * ClientManager :=
  match clients cm !! clientID with
  | None => (Some ErrClientNotFound, cm)
  | Some client => (None, delete_entries clientID client cm)
  end.

Definition GetClient (cm : ClientManager) (clientID : byte)
  : Client + error :=
  match clients cm !! clientID with
  | None => inr ErrClientNotFound
  | Some client => inl client
  end.

Definition GetClientByIP (cm : ClientManager) (ip : string)
  : Client + error :=
  match ipToClient cm !! ip with
  | None => inr ErrClientNotFound
  | Some clientID =>
      match clients cm !! clientID with
      | None => inr ErrClientNotFound
      | Some client => inl client
      end
  end.

Definition UpdateClientActivity (clientID : byte) (sequence : Z) (now : Z)
    (cm : ClientManager) : option error * ClientManager :=
  match clients cm !! clientID with
  | None => (Some ErrClientNotFound, cm)
  | Some client =>
      if sequence <=? LastSeq client then (Some ErrInvalidSequence, cm)
      else
        let client' :=
          {| ID := ID client; IP := IP client; Key := Key client;
             Address := Address client; Connected := Connected client;
             LastSeen := now; LastSeq := sequence |} in
        (None,
         {| clients := <[clientID := client']> (clients cm);
            ipToClient := ipToClient cm;
            keyToClient := keyToClient cm;
            timeout := timeout cm;
            keyManager := keyManager cm |})
  end.

(** One iteration of the second loop of [CheckTimeouts].  Every id in
    [toRemove] was read from the map under the same lock, so the lookup
    finds it. *)
Definition remove_timed_out (cm : ClientManager) (clientID : byte)
  : ClientManager :=
  match clients cm !! clientID with
  | None => cm
  | Some client => delete_entries clientID client cm
  end.

(** The first loop of [CheckTimeouts]: Go ranges over the map in an
    unspecified order; [map_to_list] fixes one. *)
Definition timed_out (now : Z) (cm : ClientManager) : list byte :=
  (List.filter
     (fun entry : byte * Client =>
        now - LastSeen (snd entry) >? timeout cm)
     (map_to_list (clients cm))).*1.

Definition CheckTimeouts (now : Z) (cm : ClientManager) : ClientManager :=
  fold_left remove_timed_out (timed_out now cm) cm.

Definition determineClient (cm : ClientManager) (packetData : list byte)
  : byte + error :=
  match drop 12 packetData with
  | s0 :: s1 :: s2 :: s3 :: d0 :: d1 :: d2 :: d3 :: _ =>
      let sourceIP := Sprintf_dotted s0 s1 s2 s3 in
      let destinationIP := Sprintf_dotted d0 d1 d2 d3 in
      if decide (destinationIP = "10.0.0.1"%string) then
        match GetClientByIP cm sourceIP with
        | inr _ => inr ErrNoClientForIP
        | inl client => inl (ID client)
        end
      else
        match GetClientByIP cm destinationIP with
        | inr _ => inr ErrNoClientForIP
        | inl client => inl (ID client)
        end
  | _ => inr ErrIPHeaderTooShort
  end.

(** *** The server and its packet processor

    [Server] and [PacketProcessor] hold pointers to the same key manager,
    client manager, TUN interface and UDP connection, so one record stands
    for both.  The UDP connection is the list of datagrams sent so far
    (address, bytes), oldest first. *)

Definition UDPAddr : Type := string.   (* a resolved address, as host:port *)

(** Package [net]: address resolution and the outcome of a send. *)
Class Net : Type := {
  net_ResolveUDPAddr : string -> option UDPAddr;
  net_WriteToUDP_ok : list byte -> UDPAddr -> bool
}.

Record Server : Type := mkServer {
  versionVars : VersionVars;
  srv_keyManager : KeyManager;
  clientManager : ClientManager;
  tunInterface : MockTunManager;
  udpConn : list (UDPAddr * list byte)
}.

Definition set_clientManager (cm : ClientManager) (s : Server) : Server :=
  {| versionVars := versionVars s; srv_keyManager := srv_keyManager s;
     clientManager := cm; tunInterface := tunInterface s;
     udpConn := udpConn s |}.

Definition set_tunInterface (tun : MockTunManager) (s : Server) : Server :=
  {| versionVars := versionVars s; srv_keyManager := srv_keyManager s;
     clientManager := clientManager s; tunInterface := tun;
     udpConn := udpConn s |}.

Definition WriteToUDP `{Net} (data : list byte) (addr : UDPAddr)
    (s : Server) : option error * Server :=
  if net_WriteToUDP_ok data addr then
    (None,
     {| versionVars := versionVars s; srv_keyManager := srv_keyManager s;
        clientManager := clientManager s; tunInterface := tunInterface s;
        udpConn := udpConn s ++ [(addr, data)] |})
  else (Some ErrUDPWrite, s).

(** *** packet_processor.go *)

Definition ProcessPacket `{AEAD} (packetData : list byte) (now : Z)
    (s : Server) : option error * Server :=
  match DecodePacket (versionVars s) packetData with
  | inr err => (Some err, s)
  | inl packet =>
      match GetClient (clientManager s) (ClientID packet) with
      | inr err => (Some err, s)
      | inl client =>
          match UpdateClientActivity (ClientID packet) (Sequence packet)
                  now (clientManager s) with
          | (Some err, cm') => (Some err, set_clientManager cm' s)
          | (None, cm') =>
              let s1 := set_clientManager cm' s in
              match DecryptPayload (Payload packet) (Key client)
                      (Sequence packet) with
              | inr err => (Some err, s1)
              | inl decryptedPayload =>
                  let '(err, tun') :=
                    WritePacket decryptedPayload (tunInterface s1) in
                  (err, set_tunInterface tun' s1)
              end
          end
      end
  end.

Definition sendToClient `{Net} (client : Client) (data : list byte)
    (s : Server) : option error * Server :=
  match net_ResolveUDPAddr (Address client) with
  | None => (Some ErrResolveAddress, s)
  | Some addr => WriteToUDP data addr s
  end.

(** The packet built by [createAndSendPacket]. *)
Definition outgoing_packet (g : VersionVars) (client : Client)
    (ipData : list byte) : Packet :=
  {| Magic := ("F"%byte, "V"%byte, "P"%byte);
     Type_ := Z_to_byte PacketTypeData;
     ClientID := ID client;
     Sequence := uint32 (LastSeq client + 1);
     Length := uint16 (len ipData);
     Version := ProtocolVersionByte g;
     Payload := ipData |}.

Definition createAndSendPacket `{AEAD} `{Net} (client : Client)
    (ipData : list byte) (s : Server) : option error * Server :=
  let packet := outgoing_packet (versionVars s) client ipData in
  let packetData := EncodePacket packet in
  match EncryptPayload packetData (Key client) (Sequence packet) with
  | inr err => (Some err, s)
  | inl encrypted => sendToClient client encrypted s
  end.

Definition ProcessOutgoingPacket `{AEAD} `{Net} (s : Server)
  : option error * Server :=
  match ReadPacket (tunInterface s) with
  | (inr err, tun') => (Some err, set_tunInterface tun' s)
  | (inl packetData, tun') =>
      let s1 := set_tunInterface tun' s in
      match determineClient (clientManager s1) packetData with
      | inr err => (Some err, s1)
      | inl clientID =>
          match GetClient (clientManager s1) clientID with
          | inr err => (Some err, s1)
          | inl client => createAndSendPacket client packetData s1
          end
      end
  end.

(** *** server_responses.go *)

Definition sendAuthResponse `{Net} (clientID : byte) (clientIP : string)
    (key : list byte) (clientAddr : UDPAddr) (s : Server)
  : option error * Server :=
  (* copy(payload[:32], key) fills at most 32 bytes of a zeroed buffer *)
  let payload := take 32 (key ++ repeat x00 32)
                   ++ list_byte_of_string clientIP in
  let packet :=
    {| Magic := ("F"%byte, "V"%byte, "P"%byte);
       Type_ := Z_to_byte PacketTypeAuth;
       ClientID := clientID;
       Sequence := 0;
       Length := uint16 (len payload);
       Version := ProtocolVersionByte (versionVars s);
       Payload := payload |} in
  WriteToUDP (EncodePacket packet) clientAddr s.

Definition sendPongResponse `{Net} (clientID : byte) (sequence : Z)
    (s : Server) : option error * Server :=
  match GetClient (clientManager s) clientID with
  | inr err => (Some err, s)
  | inl client =>
      match net_ResolveUDPAddr (Address client) with
      | None => (Some ErrResolveAddress, s)
      | Some clientAddr =>
          let packet :=
            {| Magic := ("F"%byte, "V"%byte, "P"%byte);
               Type_ := Z_to_byte PacketTypePong;
               ClientID := clientID;
               Sequence := sequence;
               Length := 0;
               Version := ProtocolVersionByte (versionVars s);
               Payload := [] |} in
          WriteToUDP (EncodePacket packet) clientAddr s
      end
  end.

(** *** The UDP handlers.  They return nothing: every failure is logged
    and the packet dropped. *)

(** [randomKey] is the buffer filled by [crypto/rand] in
    [generateRandomKey]. *)
Definition handleAuthPacket `{Net} (packet : Packet) (clientAddr : UDPAddr)
    (randomKey : list byte) (now : Z) (s : Server) : Server :=
  let selected : option (byte * list byte) :=
    if decide (ClientID packet = x00) then
      let key := randomKey in
      let clientID := findNextClientID (clientManager s) in
      if decide (clientID = x00) then None else Some (clientID, key)
    else
      if negb (HasClient (srv_keyManager s) (ClientID packet)) then None
      else match GetClientKey (srv_keyManager s) (ClientID packet) with
           | inr _ => None
           | inl key => Some (ClientID packet, key)
           end in
  match selected with
  | None => s
  | Some (clientID, key) =>
      match AddClient key clientAddr now (clientManager s) with
      | (inr _, cm') => set_clientManager cm' s
      | (inl client, cm') =>
          snd (sendAuthResponse (ID client) (IP client) key clientAddr
                 (set_clientManager cm' s))
      end
  end.

Definition handleDataPacket `{AEAD} (packet : Packet) (clientAddr : UDPAddr)
    (now : Z) (s : Server) : Server :=
  let packetData := EncodePacket packet in
  snd (ProcessPacket packetData now s).

Definition handlePingPacket `{Net} (packet : Packet) (clientAddr : UDPAddr)
    (now : Z) (s : Server) : Server :=
  match UpdateClientActivity (ClientID packet) (Sequence packet) now
          (clientManager s) with
  | (Some _, cm') => set_clientManager cm' s
  | (None, cm') =>
      snd (sendPongResponse (ClientID packet) (Sequence packet)
             (set_clientManager cm' s))
  end.

Definition handlePongPacket (packet : Packet) (clientAddr : UDPAddr)
    (now : Z) (s : Server) : Server :=
  set_clientManager
    (snd (UpdateClientActivity (ClientID packet) (Sequence packet) now
            (clientManager s))) s.

Definition processClientPacket `{AEAD} `{Net} (data : list byte)
    (clientAddr : UDPAddr) (randomKey : list byte) (now : Z) (s : Server)
  : Server :=
  match DecodePacket (versionVars s) data with
  | inr _ => s
  | inl packet =>
      let t := byte_to_Z (Type_ packet) in
      if t =? PacketTypeAuth then
        handleAuthPacket packet clientAddr randomKey now s
      else if t =? PacketTypeData then
        handleDataPacket packet clientAddr now s
      else if t =? PacketTypePing then
        handlePingPacket packet clientAddr now s
      else if t =? PacketTypePong then
        handlePongPacket packet clientAddr now s
      else s
  end.

End server.

(** ** Package protocol: the remaining packet constructors *)

Module protocol_ctor.
Import protocol.

Definition CreateAuthPacket (g : VersionVars) (clientID : byte)
    (sequence : Z) (payload : list byte) : Packet :=
  {| Magic := ("F"%byte, "V"%byte, "P"%byte);
     Type_ := Z_to_byte PacketTypeAuth;
     ClientID := clientID;
     Sequence := sequence;
     Length := uint16 (len payload);
     Version := ProtocolVersionByte g;
     Payload := payload |}.

Definition CreatePingPacket (g : VersionVars) (clientID : byte)
    (sequence : Z) : Packet :=
  {| Magic := ("F"%byte, "V"%byte, "P"%byte);
     Type_ := Z_to_byte PacketTypePing;
     ClientID := clientID;
     Sequence := sequence;
     Length := 0;
     Version := ProtocolVersionByte g;
     Payload := [] |}.

End protocol_ctor.

(** ** encoding/hex: the encoder used for generated keys *)

Module hex.

Definition hextable : list byte := list_byte_of_string "0123456789abcdef".

Definition hexchar (i : Z) : byte := nth (Z.to_nat i) hextable x00.

(** [hex.Encode]: [hextable[v>>4]], [hextable[v&0x0f]] for every byte. *)
Fixpoint Encode (src : list byte) : list byte :=
  match src with
  | [] => []
  | v :: rest =>
      hexchar (Z.shiftr (byte_to_Z v) 4)
        :: hexchar (Z.land (byte_to_Z v) 15) :: Encode rest
  end.

Definition EncodeToString (src : list byte) : string :=
  string_of_list_byte (Encode src).

End hex.

(** ** Package network: a new in-memory TUN device *)

Module network_ops.
Import network.

Definition NewMockTunManager : MockTunManager :=
  {| created := false; readQueue := []; writeQueue := [] |}.

End network_ops.

(** ** Package server: listing and status *)

Module server_status.
Import server.

(** [ListClients]: the live clients, in the order of the map iteration. *)
Definition ListClients (cm : ClientManager) : list Client :=
  (map_to_list (clients cm)).*2.

(** What [Start] and [Stop] leave in the server besides its components:
    the start time (absent while the zero time), whether the stop channel
    is closed, and the two strings the status copies. *)
Record Lifecycle : Type := mkLifecycle {
  startTime : option Z;
  stopChan_closed : bool;
  serverIP : string;
  port : string
}.

Record ServerStatus : Type := mkServerStatus {
  Uptime : Z;
  TotalClients : Z;
  ConnectedClients : Z;
  ServerIP : string;
  TUNInterface : string;
  Port : string;
  Status : string
}.

Definition stopped_status : ServerStatus :=
  {| Uptime := 0; TotalClients := 0; ConnectedClients := 0;
     ServerIP := ""; TUNInterface := ""; Port := ""; Status := "stopped" |}.

(** The [for _, client := range clients] loop counting connected clients. *)
Fixpoint count_connected (cs : list Client) (connectedCount : Z) : Z :=
  match cs with
  | [] => connectedCount
  | client :: rest =>
      count_connected rest
        (if Connected client then connectedCount + 1 else connectedCount)
  end.

(** [GetServerStatus]; [cm] is [None] while the client manager is [nil]. *)
Definition GetServerStatus (l : Lifecycle) (cm : option ClientManager)
    (now : Z) : ServerStatus :=
  match startTime l with
  | None => stopped_status
  | Some start =>
      if stopChan_closed l then stopped_status
      else
        let '(total, connected) :=
          match cm with
          | None => (0, 0)
          | Some cm =>
              let cs := ListClients cm in (len cs, count_connected cs 0)
          end in
        {| Uptime := now - start;
           TotalClients := total;
           ConnectedClients := connected;
           ServerIP := serverIP l;
           TUNInterface := "fvp0";
           Port := port l;
           Status := "running" |}
  end.

End server_status.

(** ** Package client *)

Module client.
Import protocol protocol_ctor crypto network.

Inductive client_error : Type :=
  | ErrRead
  | ErrDecode (e : error)
  | ErrNotAuthResponse
  | ErrAuthPayloadLength.

(** The connected UDP socket: whether a write of these bytes succeeds. *)
Class Conn : Type := { conn_Write_ok : list byte -> bool }.

(** The client.  [udpConn] is the list of datagrams written so far, oldest
    first; a [nil] key is the empty slice. *)
Record Client : Type := mkClient {
  serverAddr : string;
  clientID : byte;
  key : list byte;
  assignedIP : string;
  tunInterface : MockTunManager;
  udpConn : list (list byte);
  sequence : Z;          (* uint32 *)
  connected : bool
}.

Definition NewClient (serverAddr : string) : Client :=
  {| serverAddr := serverAddr; clientID := x00; key := [];
     assignedIP := ""; tunInterface := network_ops.NewMockTunManager;
     udpConn := []; sequence := 1; connected := false |}.

Definition set_udpConn (sent : list (list byte)) (c : Client) : Client :=
  {| serverAddr := serverAddr c; clientID := clientID c; key := key c;
     assignedIP := assignedIP c; tunInterface := tunInterface c;
     udpConn := sent; sequence := sequence c; connected := connected c |}.

Definition set_sequence (n : Z) (c : Client) : Client :=
  {| serverAddr := serverAddr c; clientID := clientID c; key := key c;
     assignedIP := assignedIP c; tunInterface := tunInterface c;
     udpConn := udpConn c; sequence := n; connected := connected c |}.

Definition set_tunInterface (tun : MockTunManager) (c : Client) : Client :=
  {| serverAddr := serverAddr c; clientID := clientID c; key := key c;
     assignedIP := assignedIP c; tunInterface := tun;
     udpConn := udpConn c; sequence := sequence c; connected := connected c |}.

(** [c.udpConn.Write]: [true] when the datagram was written. *)
Definition Write `{Conn} (data : list byte) (c : Client) : bool * Client :=
  if conn_Write_ok data then (true, set_udpConn (udpConn c ++ [data]) c)
  else (false, c).

Definition sendAuthRequest `{Conn} (g : VersionVars) (c : Client)
  : bool * Client :=
  let authPacket := CreateAuthPacket g (clientID c) (sequence c) [] in
  Write (EncodePacket authPacket) c.

(** [waitForAuthResponse]; [incoming] is the datagram the read delivers
    ([None] on a read error or timeout), cut to the 1500-byte buffer. *)
Definition waitForAuthResponse (g : VersionVars)
    (incoming : option (list byte)) (c : Client)
  : option client_error * Client :=
  match incoming with
  | None => (Some ErrRead, c)
  | Some datagram =>
      match DecodePacket g (take 1500 datagram) with
      | inr e => (Some (ErrDecode e), c)
      | inl packet =>
          if negb (byte_to_Z (Type_ packet) =? PacketTypeAuth)
          then (Some ErrNotAuthResponse, c)
          else if len (Payload packet) <? 32
          then (Some ErrAuthPayloadLength, c)
          else
            (None,
             {| serverAddr := serverAddr c;
                clientID := ClientID packet;
                key := take 32 (Payload packet);
                assignedIP := string_of_list_byte (drop 32 (Payload packet));
                tunInterface := tunInterface c;
                udpConn := udpConn c;
                sequence := sequence c;
                connected := connected c |})
      end
  end.

Definition processTUNPacket `{AEAD} `{Conn} (g : VersionVars)
    (data : list byte) (c : Client) : Client :=
  match EncryptPayload data (key c) (sequence c) with
  | inr _ => c
  | inl encryptedData =>
      let dataPacket :=
        CreateDataPacket g (clientID c) (sequence c) encryptedData in
      match Write (EncodePacket dataPacket) c with
      | (false, c') => c'
      | (true, c') => set_sequence (uint32 (sequence c' + 1)) c'
      end
  end.


Definition handleDataPacket `{AEAD} (packet : Packet) (c : Client)
  : Client :=
  match DecryptPayload (Payload packet) (key c) (Sequence packet) with
  | inr _ => c
  | inl decryptedData =>
      set_tunInterface (WritePacket decryptedData (tunInterface c)).2 c
  end.

(** [handlePongPacket] only logs. *)
Definition processServerPacket `{AEAD} (g : VersionVars) (data : list byte)
    (c : Client) : Client :=
  match DecodePacket g data with
  | inr _ => c
  | inl packet =>
      if byte_to_Z (Type_ packet) =? PacketTypeData
      then handleDataPacket packet c
      else c
  end.

End client.

(** ** The server command line: the configuration file *)

Module cli.
Import crypto.

Record ServerConfig : Type := mkServerConfig {
  Server_Port : string;
  Server_TimeoutMinutes : Z;
  Clients : list ClientConfig
}.

(** The file server.yaml: [None] while it does not exist.  The YAML
    encoder and decoder are taken to be inverse to each other, so the file
    is represented by the configuration it holds. *)
Definition File : Type := option ServerConfig.

(** [os.WriteFile]: whether writing this configuration succeeds. *)
Class Disk : Type := { os_WriteFile_ok : ServerConfig -> bool }.

Inductive cli_error : Type :=
  | ErrConfigExists
  | ErrNoConfig
  | ErrGenerateKey
  | ErrMaxClients
  | ErrWriteConfig
  | ErrNotFound (clientID : byte).

Definition loadConfig (f : File) : option ServerConfig := f.

Definition writeConfig `{Disk} (config : ServerConfig) (f : File)
  : bool * File :=
  if os_WriteFile_ok config then (true, Some config) else (false, f).

(** [Setup]; the TUN probe that follows the write only prints a warning. *)
Definition Setup `{Disk} (port : string) (timeoutMinutes : Z) (f : File)
  : option cli_error * File :=
  match f with
  | Some _ => (Some ErrConfigExists, f)
  | None =>
      let config :=
        {| Server_Port := port; Server_TimeoutMinutes := timeoutMinutes;
           Clients := [] |} in
      match writeConfig config f with
      | (false, f') => (Some ErrWriteConfig, f')
      | (true, f') => (None, f')
      end
  end.

(** [generateKey]; [random] is what [rand.Read] leaves in the 32-byte
    buffer, [None] when it fails. *)
Definition generateKey (random : option (list byte)) : option string :=
  match random with
  | None => None
  | Some bytes =>
      Some (hex.EncodeToString (take 32 (bytes ++ repeat x00 32)))
  end.

(** The first loop of [findNextClientID]: [used[client.ID] = true]. *)
Fixpoint mark_used (clients : list ClientConfig) (used : gmap byte bool)
  : gmap byte bool :=
  match clients with
  | [] => used
  | client :: rest => mark_used rest (<[cfg_ID client := true]> used)
  end.

(** The second loop: [for i := uint8(1); i != 0; i++]. *)
Fixpoint findNextClientID_loop (fuel : nat) (i : byte)
    (used : gmap byte bool) : byte :=
  match fuel with
  | O => x00
  | S fuel' =>
      if decide (i = x00) then x00
      else if negb (default false (used !! i)) then i
      else findNextClientID_loop fuel' (Z_to_byte (byte_to_Z i + 1)) used
  end.

Definition findNextClientID (clients : list ClientConfig) : byte :=
  findNextClientID_loop 256 x01 (mark_used clients ∅).

Definition AddClient `{Disk} (random : option (list byte)) (f : File)
  : (byte * string + cli_error) * File :=
  match loadConfig f with
  | None => (inr ErrNoConfig, f)
  | Some config =>
      match generateKey random with
      | None => (inr ErrGenerateKey, f)
      | Some key =>
          let nextID := findNextClientID (Clients config) in
          if decide (nextID = x00) then (inr ErrMaxClients, f)
          else
            let client := {| cfg_ID := nextID; cfg_Key := key |} in
            let config' :=
              {| Server_Port := Server_Port config;
                 Server_TimeoutMinutes := Server_TimeoutMinutes config;
                 Clients := Clients config ++ [client] |} in
            match writeConfig config' f with
            | (false, f') => (inr ErrWriteConfig, f')
            | (true, f') => (inl (nextID, key), f')
            end
      end
  end.

(** The loop of [RemoveClient]: drop the first entry with this id. *)
Fixpoint remove_first (clientID : byte) (clients : list ClientConfig)
  : option (list ClientConfig) :=
  match clients with
  | [] => None
  | client :: rest =>
      if decide (cfg_ID client = clientID) then Some rest
      else match remove_first clientID rest with
           | Some rest' => Some (client :: rest')
           | None => None
           end
  end.

Definition RemoveClient `{Disk} (clientID : byte) (f : File)
  : option cli_error * File :=
  match loadConfig f with
  | None => (Some ErrNoConfig, f)
  | Some config =>
      match remove_first clientID (Clients config) with
      | None => (Some (ErrNotFound clientID), f)
      | Some clients' =>
          let config' :=
            {| Server_Port := Server_Port config;
               Server_TimeoutMinutes := Server_TimeoutMinutes config;
               Clients := clients' |} in
          match writeConfig config' f with
          | (false, f') => (Some ErrWriteConfig, f')
          | (true, f') => (None, f')
          end
      end
  end.

End cli.

(** * Specification vocabulary and example data *)

Import protocol crypto network server.

(** ** Packet validation *)

(** What the four checks compute, in the order in which they run. *)
Definition validate_outcome (p : Packet) : option error :=
  if decide (Magic p <> MagicBytes) then Some ErrInvalidMagic
  else if decide ((parseVersion (Version p)).1.1 <> 1)
       then Some ErrUnsupportedVersion
  else if decide (~ (1 <= byte_to_Z (Type_ p) <= 4))
       then Some ErrInvalidPacketType
  else if decide (Length p <> len (Payload p) mod 2 ^ 16)
       then Some ErrLengthMismatch
  else None.

(** A packet that carries 65536 payload bytes and announces none. *)
Definition oversized_packet : Packet :=
  {| Magic := MagicBytes; Type_ := x01; ClientID := x01; Sequence := 1;
     Length := 0; Version := x00; Payload := repeat x00 (Z.to_nat 65536) |}.

(** ** The peer table *)

(** The entry [c] after an admitted packet: only [LastSeen] and [LastSeq]
    change. *)
Definition touch (c : Client) (s now : Z) : Client :=
  {| ID := ID c; IP := IP c; Key := Key c; Address := Address c;
     Connected := Connected c; LastSeen := now; LastSeq := s |}.

(** The client map and its two indices describe the same live clients. *)
Definition indices_consistent (cm : ClientManager) : Prop :=
  (forall id c, clients cm !! id = Some c ->
     ID c = id
     /\ ipToClient cm !! IP c = Some (ID c)
     /\ keyToClient cm !! Sprintf_x (Key c) = Some (ID c))
  /\ (forall ip id, ipToClient cm !! ip = Some id ->
        exists c, clients cm !! id = Some c /\ IP c = ip)
  /\ (forall kh id, keyToClient cm !! kh = Some id ->
        exists c, clients cm !! id = Some c /\ Sprintf_x (Key c) = kh).

(** The error the peer table reports when no id or no inner IP is left. *)
Definition is_Full (e : error) : Prop :=
  e = ErrMaxClientsReached \/ e = ErrNoIPAvailable.

(** [r] is the least id of 1..255 that no live entry carries. *)
Definition smallest_unused_id (cm : ClientManager) (r : byte) : Prop :=
  1 <= byte_to_Z r <= 255
  /\ clients cm !! r = None
  /\ forall j : byte,
       1 <= byte_to_Z j < byte_to_Z r -> is_Some (clients cm !! j).

(** Some live client has the inner IP [ip]. *)
Definition ip_in_use (cm : ClientManager) (ip : string) : Prop :=
  exists id c, clients cm !! id = Some c /\ IP c = ip.

(** [ip] is 10.0.0.i for the least i of 2..255 that no live client has. *)
Definition smallest_unused_ip (cm : ClientManager) (ip : string) : Prop :=
  exists i, 2 <= i <= 255 /\ ip = Sprintf_ip i
            /\ ~ ip_in_use cm ip
            /\ forall j, 2 <= j < i -> ip_in_use cm (Sprintf_ip j).

(** The operations that change the table. *)
Inductive op : Type :=
  | OpAddClient (key : list byte) (address : string) (now : Z)
  | OpRemoveClient (clientID : byte)
  | OpUpdateClientActivity (clientID : byte) (sequence now : Z)
  | OpCheckTimeouts (now : Z).

(** The table after one operation; results and errors are dropped. *)
Definition apply_op (cm : ClientManager) (o : op) : ClientManager :=
  match o with
  | OpAddClient key address now => (AddClient key address now cm).2
  | OpRemoveClient clientID => (RemoveClient clientID cm).2
  | OpUpdateClientActivity clientID sequence now =>
      (UpdateClientActivity clientID sequence now cm).2
  | OpCheckTimeouts now => CheckTimeouts now cm
  end.

(** The table after a sequence of operations, first to last. *)
Definition run (ops : list op) (cm : ClientManager) : ClientManager :=
  fold_left apply_op ops cm.

(** The inner addresses 10.0.0.2 .. 10.0.0.255 and the ids 1 .. 255. *)
Definition ip_pool : gset string := list_to_set (Sprintf_ip <$> seqZ 2 254).

Definition nonzero_ids : gset byte := list_to_set (Z_to_byte <$> seqZ 1 255).

(** What every reachable table satisfies: consistent indices, one inner IP
    per client, all of them from the pool. *)
Definition table_invariant (cm : ClientManager) : Prop :=
  indices_consistent cm
  /\ size (clients cm) = size (ipToClient cm)
  /\ dom (ipToClient cm) ⊆ ip_pool.

(** Some live client holds a key with the fingerprint of [key]. *)
Definition key_in_use (cm : ClientManager) (key : list byte) : Prop :=
  exists id c, clients cm !! id = Some c
               /\ Sprintf_x (Key c) = Sprintf_x key.

(** A table filled by 254 authentications with distinct 32-byte keys. *)
Definition nth_key (i : Z) : list byte := Z_to_byte i :: repeat x00 31.

Definition fill_ops : list op :=
  (fun i => OpAddClient (nth_key i) "192.0.2.1:40000" 0) <$> seqZ 1 254.

Definition filled_table : ClientManager :=
  run fill_ops (NewClientManager NewKeyManager).

(** ** The datapath *)

(** A stand-in for the cipher, used only to run the model on examples: the
    "ciphertext" is the plaintext with every byte complemented, followed by
    a 16-byte tag taken from the key and the nonce. *)
Definition example_tag (key nonce : list byte) : list byte :=
  take 16 (nonce ++ key ++ repeat x00 16).

Definition complement (b : byte) : byte := Z_to_byte (255 - byte_to_Z b).

Definition example_Seal (key nonce plaintext : list byte) : list byte :=
  (complement <$> plaintext) ++ example_tag key nonce.

Definition example_Open (key nonce ciphertext : list byte)
  : option (list byte) :=
  let n := (length ciphertext - 16)%nat in
  if decide (16 <= length ciphertext
             /\ drop n ciphertext = example_tag key nonce)%nat
  then Some (complement <$> take n ciphertext)
  else None.

Definition example_aead : AEAD :=
  {| aead_Seal := example_Seal; aead_Open := example_Open |}.

(** A network on which every address resolves and every send succeeds. *)
Definition example_net : Net :=
  {| net_ResolveUDPAddr := fun a => Some a;
     net_WriteToUDP_ok := fun _ _ => true |}.

Definition example_key : list byte := nth_key 7.

(** A 20-byte IPv4 header from 8.8.8.8 to 10.0.0.2, followed by [body]. *)
Definition example_datagram (body : list byte) : list byte :=
  [x45; x00; x00; Z_to_byte (20 + len body)] ++ repeat x00 8
    ++ [x08; x08; x08; x08] ++ [x0a; x00; x00; x02] ++ body.

(** A server with one live peer (id 1, inner IP 10.0.0.2) and two datagrams
    for it waiting on the TUN device. *)
Definition example_server : Server :=
  {| versionVars := VersionVars_init;
     srv_keyManager := {| keys := {[ x01 := example_key ]} |};
     clientManager :=
       (AddClient example_key "203.0.113.9:5000" 0
          (NewClientManager {| keys := {[ x01 := example_key ]} |})).2;
     tunInterface :=
       {| created := true;
          readQueue := [example_datagram [x01]; example_datagram [x02]];
          writeQueue := [] |};
     udpConn := [] |}.

Definition example_client : Client :=
  {| ID := x01; IP := "10.0.0.2"; Key := example_key;
     Address := "203.0.113.9:5000"; Connected := true;
     LastSeen := 0; LastSeq := 0 |}.

(** The bytes C1 expects on the wire: a cleartext header followed by the
    sealed datagram. *)
Definition sealed_payload_wire `{AEAD} (g : VersionVars) (client : Client)
    (ipData : list byte) : list byte :=
  let seq := uint32 (LastSeq client + 1) in
  EncodePacket
    (CreateDataPacket g (ID client) seq
       (aead_Seal (Key client) (GenerateNonce seq) ipData)).

(** An Auth request claiming id 1, a Pong with sequence 5, and a Data packet
    with sequence 5 whose payload is not a valid ciphertext. *)
Definition auth_request : Packet :=
  {| Magic := MagicBytes; Type_ := x02; ClientID := x01; Sequence := 1;
     Length := 0; Version := x00; Payload := [] |}.

Definition garbage_data : Packet :=
  {| Magic := MagicBytes; Type_ := x01; ClientID := x01; Sequence := 5;
     Length := 20; Version := x00; Payload := repeat x00 20 |}.

(** A server whose registry knows peer 1 and whose peer table is empty. *)
Definition fresh_server : Server :=
  {| versionVars := VersionVars_init;
     srv_keyManager := {| keys := {[ x01 := example_key ]} |};
     clientManager :=
       NewClientManager {| keys := {[ x01 := example_key ]} |};
     tunInterface := {| created := true; readQueue := []; writeQueue := [] |};
     udpConn := [] |}.

(** Peer 1 authenticates from one address, is seen with sequence 5 at time
    100, and authenticates again from another address at time 200. *)
Definition authenticated_server : Server :=
  handleAuthPacket (H := example_net) auth_request "203.0.113.9:5000" [] 0
    fresh_server.



(** ** The key registry *)

(** An entry of the clients list is loadable when its key is hex and decodes
    to 32 bytes. *)
Definition loadable (c : ClientConfig) : Prop :=
  exists key, hex_DecodeString (cfg_Key c) = inl key /\ len key = 32.

(** The key of the last entry of the list that carries [id]. *)
Fixpoint last_key (id : byte) (cs : list ClientConfig) : option (list byte) :=
  match cs with
  | [] => None
  | c :: rest =>
      match last_key id rest with
      | Some key => Some key
      | None =>
          if decide (cfg_ID c = id) then
            match hex_DecodeString (cfg_Key c) with
            | inl key => Some key
            | inr _ => None
            end
          else None
      end
  end.

(** A file system and YAML parser that deliver [config] for every path. *)
Definition fixed_config (config : Config) : ConfigIO :=
  {| os_ReadFile := fun _ => Some [];
     yaml_Unmarshal := fun _ => Some config |}.

Definition hex_key_a : string :=
  "00112233445566778899aabbccddeeff00112233445566778899aabbccddeeff".

Definition hex_key_b : string :=
  "ffeeddccbbaa99887766554433221100ffeeddccbbaa99887766554433221100".

(** Two entries with the same id and different keys. *)
Definition duplicate_id_config : Config :=
  {| Clients := [ {| cfg_ID := x01; cfg_Key := hex_key_a |};
                  {| cfg_ID := x01; cfg_Key := hex_key_b |} ] |}.

(** ** Further vocabulary *)

Import protocol_ctor.

(** The entries of a clients list before the first one that does not load. *)
Fixpoint loaded_prefix (cs : list ClientConfig) : list ClientConfig :=
  match cs with
  | [] => []
  | c :: rest =>
      match hex_DecodeString (cfg_Key c) with
      | inl key => if len key =? 32 then c :: loaded_prefix rest else []
      | inr _ => []
      end
  end.

(** Every live client is marked connected. *)
Definition all_connected (cm : ClientManager) : Prop :=
  forall id c, clients cm !! id = Some c -> Connected c = true.

(** No character of the string is a dot. *)
Fixpoint nodot (s : string) : bool :=
  match s with
  | EmptyString => true
  | String ch r => negb (Ascii.eqb ch ".") && nodot r
  end.

(** The datagram a client with id 1 and [example_key] sends for
    [example_datagram [x01]] at sequence 1, under the stand-in cipher. *)
Definition example_data_wire : list byte :=
  EncodePacket
    (CreateDataPacket VersionVars_init x01 1
       (example_Seal example_key (GenerateNonce 1) (example_datagram [x01]))).

(** A client that has completed the handshake as peer 1. *)
Definition example_vpn_client : client.Client :=
  {| client.serverAddr := "198.51.100.1:1194";
     client.clientID := x01;
     client.key := example_key;
     client.assignedIP := "10.0.0.2";
     client.tunInterface :=
       {| created := true; readQueue := []; writeQueue := [] |};
     client.udpConn := [];
     client.sequence := 1;
     client.connected := true |}.

(** A socket on which every write succeeds. *)
Definition example_conn : client.Conn :=
  {| client.conn_Write_ok := fun _ => true |}.

(** ** The command line *)

(** The commands that change the configuration file. *)
Inductive cli_op : Type :=
  | CliSetup (port : string) (timeoutMinutes : Z)
  | CliAddClient (random : option (list byte))
  | CliRemoveClient (clientID : byte).

Definition cli_apply `{cli.Disk} (f : cli.File) (o : cli_op) : cli.File :=
  match o with
  | CliSetup port timeoutMinutes => (cli.Setup port timeoutMinutes f).2
  | CliAddClient random => (cli.AddClient random f).2
  | CliRemoveClient clientID => (cli.RemoveClient clientID f).2
  end.

Definition cli_run `{cli.Disk} (ops : list cli_op) (f : cli.File)
  : cli.File :=
  fold_left cli_apply ops f.

(** The ids of a clients list are pairwise distinct and not 0, and every
    entry loads. *)
Definition clients_list_ok (cs : list ClientConfig) : Prop :=
  NoDup (cfg_ID <$> cs) /\ (x00 ∉ cfg_ID <$> cs) /\ Forall loadable cs.

(** The file is absent, or holds a clients list that is in order. *)
Definition file_ok (f : cli.File) : Prop :=
  match f with
  | None => True
  | Some config => clients_list_ok (cli.Clients config)
  end.

(** * Properties *)

(** ** Bytes and little-endian integers *)

Ltac split_bounds :=
  repeat match goal with
    | |- context [?a <=? ?b] => destruct (Z.leb_spec a b); try lia
    | |- context [?a <? ?b] => destruct (Z.ltb_spec a b); try lia
    end.

Lemma byte_to_Z_range (b : byte) : 0 <= byte_to_Z b < 256.
Proof.
  unfold byte_to_Z. pose proof (Byte.to_N_bounded b). lia.
Qed.

Lemma Z_to_byte_to_Z (b : byte) : Z_to_byte (byte_to_Z b) = b.
Proof.
  unfold Z_to_byte. pose proof (byte_to_Z_range b) as Hr.
  rewrite Z.mod_small by exact Hr.
  unfold byte_to_Z. rewrite N2Z.id, Byte.of_to_N. reflexivity.
Qed.

Lemma byte_to_Z_to_byte (n : Z) : byte_to_Z (Z_to_byte n) = n mod 2 ^ 8.
Proof.
  unfold Z_to_byte, byte_to_Z. change (2 ^ 8) with 256.
  pose proof (Z.mod_pos_bound n 256 ltac:(lia)) as Hr.
  destruct (Byte.of_N (Z.to_N (n mod 256))) as [b|] eqn:E.
  - apply Byte.to_of_N in E. simpl. rewrite E. lia.
  - apply Byte.of_N_None_iff in E. lia.
Qed.

Lemma byte_to_Z_inj (a b : byte) : byte_to_Z a = byte_to_Z b -> a = b.
Proof.
  intros H. rewrite <- (Z_to_byte_to_Z a), <- (Z_to_byte_to_Z b). now rewrite H.
Qed.

Lemma byte_testbit_high (b : byte) (n : Z) : 8 <= n -> Z.testbit (byte_to_Z b) n = false.
Proof.
  intros Hn. pose proof (byte_to_Z_range b) as Hr.
  rewrite <- (Z.mod_small (byte_to_Z b) (2 ^ 8)) by (change (2 ^ 8) with 256; lia).
  apply Z.mod_pow2_bits_high. lia.
Qed.

Lemma testbit_small (v k n : Z) : 0 <= v < 2 ^ k -> k <= n -> Z.testbit v n = false.
Proof.
  intros Hv Hn. destruct (Z.ltb_spec k 0).
  - rewrite Z.pow_neg_r in Hv by lia. lia.
  - rewrite <- (Z.mod_small v (2 ^ k)) by lia. apply Z.mod_pow2_bits_high. lia.
Qed.

(* testbit of a byte placed at bit offset k *)
Lemma testbit_byte_shiftl (b : byte) (k n : Z) :
  0 <= k -> 0 <= n ->
  Z.testbit (Z.shiftl (byte_to_Z b) k) n =
  (k <=? n) && (n <? k + 8) && Z.testbit (byte_to_Z b) (n - k).
Proof.
  intros Hk Hn. rewrite Z.shiftl_spec by lia.
  destruct (Z.leb_spec k n); destruct (Z.ltb_spec n (k + 8)); simpl; try reflexivity.
  - apply byte_testbit_high. lia.
  - apply Z.testbit_neg_r. lia.
  - apply Z.testbit_neg_r. lia.
Qed.

Lemma testbit_byte0 (b : byte) (n : Z) : 0 <= n ->
  Z.testbit (byte_to_Z b) n = (n <? 8) && Z.testbit (byte_to_Z b) n.
Proof.
  intros. destruct (Z.ltb_spec n 8); simpl; auto. apply byte_testbit_high; lia.
Qed.


Lemma Uint32_PutUint32 (v : Z) : is_uint32 v ->
  Uint32 (Z_to_byte v) (Z_to_byte (Z.shiftr v 8))
         (Z_to_byte (Z.shiftr v 16)) (Z_to_byte (Z.shiftr v 24)) = v.
Proof.
  intros Hv. unfold Uint32. apply Z.bits_inj'. intros n Hn.
  rewrite !Z.lor_spec, !testbit_byte_shiftl by lia.
  rewrite !byte_to_Z_to_byte, !Z.testbit_mod_pow2 by lia.
  destruct (Z.ltb_spec n 8); [|destruct (Z.ltb_spec n 16); [|destruct (Z.ltb_spec n 24); [| destruct (Z.ltb_spec n 32)]]].
  all: repeat match goal with |- context [?a <=? ?b] => destruct (Z.leb_spec a b); try lia end.
  all: repeat match goal with |- context [?a <? ?b] => destruct (Z.ltb_spec a b); try lia end.
  all: simpl; rewrite ?Z.shiftr_spec by lia; rewrite ?orb_false_r.
  all: try (f_equal; lia).
  symmetry. apply (testbit_small v 32); auto.
Qed.

Lemma Uint16_PutUint16 (v : Z) : is_uint16 v ->
  Uint16 (Z_to_byte v) (Z_to_byte (Z.shiftr v 8)) = v.
Proof.
  intros Hv. unfold Uint16. apply Z.bits_inj'. intros n Hn.
  rewrite !Z.lor_spec, !testbit_byte_shiftl by lia.
  rewrite !byte_to_Z_to_byte, !Z.testbit_mod_pow2 by lia.
  destruct (Z.ltb_spec n 8); [|destruct (Z.ltb_spec n 16)].
  all: split_bounds.
  all: simpl; rewrite ?Z.shiftr_spec by lia; rewrite ?orb_false_r.
  all: try (f_equal; lia).
  symmetry. apply (testbit_small v 16); auto.
Qed.

Lemma Uint32_byte (b0 b1 b2 b3 : byte) (k : Z) (bk : byte) :
  (k = 0 /\ bk = b0) \/ (k = 8 /\ bk = b1) \/ (k = 16 /\ bk = b2) \/ (k = 24 /\ bk = b3) ->
  Z_to_byte (Z.shiftr (Uint32 b0 b1 b2 b3) k) = bk.
Proof.
  intros Hk. apply byte_to_Z_inj. rewrite byte_to_Z_to_byte.
  unfold Uint32. rewrite <- (Z.shiftl_0_r (byte_to_Z b0)).
  apply Z.bits_inj'. intros n Hn.
  rewrite Z.testbit_mod_pow2 by lia.
  rewrite (testbit_byte0 bk) by lia.
  destruct (Z.ltb_spec n 8); simpl; [|reflexivity].
  rewrite Z.shiftr_spec by lia.
  rewrite !Z.lor_spec, !testbit_byte_shiftl by lia.
  destruct Hk as [[-> ->]|[[-> ->]|[[-> ->]|[-> ->]]]].
  all: split_bounds; simpl; rewrite ?orb_false_r; f_equal; lia.
Qed.

Lemma PutUint32_Uint32 (b0 b1 b2 b3 : byte) :
  PutUint32 (Uint32 b0 b1 b2 b3) = [b0; b1; b2; b3].
Proof.
  unfold PutUint32.
  rewrite <- (Z.shiftr_0_r (Uint32 b0 b1 b2 b3)) at 1.
  rewrite (Uint32_byte b0 b1 b2 b3 0 b0), (Uint32_byte b0 b1 b2 b3 8 b1),
    (Uint32_byte b0 b1 b2 b3 16 b2), (Uint32_byte b0 b1 b2 b3 24 b3); tauto.
Qed.

Lemma Uint16_byte (b0 b1 : byte) (k : Z) (bk : byte) :
  (k = 0 /\ bk = b0) \/ (k = 8 /\ bk = b1) ->
  Z_to_byte (Z.shiftr (Uint16 b0 b1) k) = bk.
Proof.
  intros Hk. apply byte_to_Z_inj. rewrite byte_to_Z_to_byte.
  unfold Uint16. rewrite <- (Z.shiftl_0_r (byte_to_Z b0)).
  apply Z.bits_inj'. intros n Hn.
  rewrite Z.testbit_mod_pow2 by lia.
  rewrite (testbit_byte0 bk) by lia.
  destruct (Z.ltb_spec n 8); simpl; [|reflexivity].
  rewrite Z.shiftr_spec by lia.
  rewrite !Z.lor_spec, !testbit_byte_shiftl by lia.
  destruct Hk as [[-> ->]|[-> ->]].
  all: split_bounds; simpl; rewrite ?orb_false_r; f_equal; lia.
Qed.

Lemma PutUint16_Uint16 (b0 b1 : byte) : PutUint16 (Uint16 b0 b1) = [b0; b1].
Proof.
  unfold PutUint16.
  rewrite <- (Z.shiftr_0_r (Uint16 b0 b1)) at 1.
  rewrite (Uint16_byte b0 b1 0 b0), (Uint16_byte b0 b1 8 b1); tauto.
Qed.



(** ** The wire codec *)


Lemma ParsePacket_EncodePacket (p : Packet) :
  Packet_typed p -> ParsePacket (EncodePacket p) = inl p.
Proof.
  intros [Hs Hl]. destruct p as [[[m0 m1] m2] t c s l v pl]. simpl in *.
  unfold EncodePacket, ParsePacket. simpl.
  rewrite Uint32_PutUint32, Uint16_PutUint16 by assumption. reflexivity.
Qed.

Lemma EncodePacket_ParsePacket (b : list byte) (p : Packet) :
  ParsePacket b = inl p -> EncodePacket p = b.
Proof.
  unfold ParsePacket. intros H.
  repeat (destruct b as [|? b]; [discriminate H|]).
  injection H as <-. unfold EncodePacket.
  cbn [Magic Type_ ClientID Sequence Length Version Payload].
  rewrite PutUint32_Uint32, PutUint16_Uint16. reflexivity.
Qed.

(** C8. The codec round-trips.  For every well-formed packet [p] (its
    [Sequence] and [Length] hold values of their Go types and [Length] is the
    payload size), [ParsePacket (EncodePacket p)] succeeds with [p]; and for
    every byte string [b] on which [ParsePacket] succeeds with [p],
    [EncodePacket p] is [b], byte for byte. *)
Theorem codec_round_trip :
  (forall p : Packet,
      Packet_typed p -> Length p = len (Payload p) ->
      ParsePacket (EncodePacket p) = inl p)
  /\ (forall (b : list byte) (p : Packet),
         ParsePacket b = inl p -> EncodePacket p = b).
Proof.
  split.
  - intros p Hty _. now apply ParsePacket_EncodePacket.
  - exact EncodePacket_ParsePacket.
Qed.


(** ** Packet validation *)


Lemma InitProtocolVersion_major (v : string) (g : VersionVars) :
  ProtocolVersionMajor g = 1 ->
  ProtocolVersionMajor (snd (InitProtocolVersion v g)) = 1.
Proof.
  intros Hg. unfold InitProtocolVersion.
  destruct (decide (v = EmptyString)); [reflexivity|].
  destruct (Split_dot v) as [|p0 [|p1 [|p2 ps]]]; try exact Hg.
  destruct (Atoi p0) as [major|]; [|exact Hg].
  destruct (Atoi p1) as [minor|]; [|exact Hg].
  destruct (Atoi p2) as [patch|]; [|exact Hg].
  destruct (Z.eqb_spec major 1) as [->|]; simpl; [|exact Hg].
  destruct (minor >? 31); [exact Hg|].
  destruct (patch >? 7); [exact Hg|]. reflexivity.
Qed.

Lemma reachable_major (g : VersionVars) :
  VersionVars_reachable g -> ProtocolVersionMajor g = 1.
Proof.
  induction 1 as [|v g _ IH]; [reflexivity|].
  now apply InitProtocolVersion_major.
Qed.

(** C9, as stated, fails: [oversized_packet] has a [Length] field (0) that
    differs from its payload size (65536), and [ValidatePacket] accepts it,
    because the comparison is made after the conversion to [uint16]. *)
Lemma ValidatePacket_accepts_oversized :
  ValidatePacket VersionVars_init oversized_packet = None
  /\ (Length oversized_packet =? len (Payload oversized_packet)) = false.
Proof. split; vm_compute; reflexivity. Qed.

(** C9, amended.  While the version variables hold what the program can
    store in them, [ValidatePacket] rejects a packet when its magic differs
    from "FVP", its decoded major version differs from 1, its type is outside
    1..4, or its [Length] field differs from its payload size reduced modulo
    2^16, and accepts it otherwise; the checks run in the order magic,
    version, type, length, the first failing one gives the error.  For a
    payload shorter than 65536 bytes the length check compares [Length] with
    the payload size itself. *)
Theorem ValidatePacket_spec (g : VersionVars) (p : Packet) :
  VersionVars_reachable g ->
  ValidatePacket g p = validate_outcome p
  /\ (ValidatePacket g p = None <->
      Magic p = MagicBytes
      /\ (parseVersion (Version p)).1.1 = 1
      /\ 1 <= byte_to_Z (Type_ p) <= 4
      /\ Length p = len (Payload p) mod 2 ^ 16)
  /\ (len (Payload p) < 2 ^ 16 ->
      len (Payload p) mod 2 ^ 16 = len (Payload p)).
Proof.
  intros Hg. apply reachable_major in Hg.
  assert (Hspec : ValidatePacket g p = validate_outcome p).
  { unfold ValidatePacket, validate_outcome, run_validators,
      ValidateMagic, ValidateVersion, ValidateType, ValidateLength, uint16,
      PacketTypeData, PacketTypePong.
    cbn [parseVersion fst snd]. rewrite Hg.
    destruct (decide (Magic p = MagicBytes)) as [Hm|Hm];
      destruct (decide (Magic p <> MagicBytes)); try tauto.
    change (negb (1 =? 1)) with false. cbn iota.
    destruct (decide (1 <> 1)) as [?|_]; [congruence|].
    destruct (decide (~ 1 <= byte_to_Z (Type_ p) <= 4)) as [Ht|Ht].
    - destruct (Z.ltb_spec (byte_to_Z (Type_ p)) 1); simpl; [reflexivity|].
      destruct (Z.gtb_spec (byte_to_Z (Type_ p)) 4); [reflexivity|lia].
    - destruct (Z.ltb_spec (byte_to_Z (Type_ p)) 1); simpl; [lia|].
      destruct (Z.gtb_spec (byte_to_Z (Type_ p)) 4); [lia|].
      destruct (Z.eqb_spec (Length p) (len (Payload p) mod 2 ^ 16));
        destruct (decide (Length p <> len (Payload p) mod 2 ^ 16));
        cbn [negb]; first [reflexivity | contradiction]. }
  split; [exact Hspec|]. split.
  - rewrite Hspec. unfold validate_outcome. cbn [parseVersion fst snd].
    repeat case_decide; split; try discriminate; try tauto.
  - intros Hlt. apply Z.mod_small. unfold len in *. lia.
Qed.

Lemma ValidatePacket_spec_witness :
  ValidatePacket VersionVars_init oversized_packet
    = validate_outcome oversized_packet.
Proof.
  exact (proj1 (ValidatePacket_spec VersionVars_init oversized_packet
                  reach_init)).
Defined.

(** ** The peer table *)

(** *** Inbound admission *)

Lemma UpdateClientActivity_live (cm : ClientManager) (p : byte) (c : Client)
    (s now : Z) :
  clients cm !! p = Some c ->
  UpdateClientActivity p s now cm =
    if s <=? LastSeq c then (Some ErrInvalidSequence, cm)
    else (None,
          {| clients := <[p := touch c s now]> (clients cm);
             ipToClient := ipToClient cm;
             keyToClient := keyToClient cm;
             timeout := timeout cm;
             keyManager := keyManager cm |}).
Proof. intros Hc. unfold UpdateClientActivity. now rewrite Hc. Qed.

(** C3.  For a live peer [p] with entry [c] and a sequence [s],
    [UpdateClientActivity] succeeds if and only if [s] is strictly greater
    than the last accepted sequence of [p]; on success the entry of [p] has
    [LastSeq = s] and [LastSeen] the current time; and a second call with
    the same [s], at whatever time, fails with [ErrInvalidSequence]. *)
Theorem UpdateClientActivity_spec (cm : ClientManager) (p : byte)
    (c : Client) (s now now' : Z) :
  clients cm !! p = Some c ->
  let r := UpdateClientActivity p s now cm in
  (r.1 = None <-> s > LastSeq c)
  /\ (r.1 = None ->
      exists c', clients r.2 !! p = Some c'
                 /\ LastSeq c' = s /\ LastSeen c' = now)
  /\ (UpdateClientActivity p s now' r.2).1 = Some ErrInvalidSequence.
Proof.
  intros Hc r. subst r. rewrite (UpdateClientActivity_live cm p c) by exact Hc.
  destruct (Z.leb_spec s (LastSeq c)) as [Hle|Hgt]; cbn [fst snd].
  - split; [split; [discriminate|lia]|]. split; [discriminate|].
    rewrite (UpdateClientActivity_live cm p c) by exact Hc.
    destruct (Z.leb_spec s (LastSeq c)); [reflexivity|lia].
  - split; [split; [lia|reflexivity]|]. split.
    + intros _. exists (touch c s now). cbn [clients].
      rewrite lookup_insert_eq. auto.
    + rewrite (UpdateClientActivity_live _ p (touch c s now))
        by (cbn [clients]; apply lookup_insert_eq).
      cbn [touch LastSeq]. destruct (Z.leb_spec s s); [reflexivity|lia].
Qed.

Lemma UpdateClientActivity_spec_witness :
  (UpdateClientActivity x01 5 100 (clientManager authenticated_server)).1
    = None
  <-> 5 > LastSeq example_client.
Proof.
  exact (proj1 (UpdateClientActivity_spec (clientManager authenticated_server)
                  x01 example_client 5 100 200
                  ltac:(vm_compute; reflexivity))).
Defined.

(** *** The two allocation loops *)

Lemma findNextClientID_loop_spec (cl : gmap byte Client) (fuel : nat) :
  forall k : Z,
    1 <= k <= 256 -> 257 <= Z.of_nat fuel + k ->
    (forall j : byte, 1 <= byte_to_Z j < k -> is_Some (cl !! j)) ->
    let r := findNextClientID_loop fuel (Z_to_byte k) cl in
    (r = x00 /\ forall j : byte, j <> x00 -> is_Some (cl !! j))
    \/ (r <> x00 /\ cl !! r = None
        /\ forall j : byte, 1 <= byte_to_Z j < byte_to_Z r -> is_Some (cl !! j)).
Proof.
  induction fuel as [|fuel IH]; intros k Hk Hfuel Hbelow; [lia|].
  cbn [findNextClientID_loop].
  destruct (decide (Z_to_byte k = x00)) as [Hz|Hnz].
  - left. split; [reflexivity|]. intros j Hj. apply Hbelow.
    assert (k = 256).
    { apply (f_equal byte_to_Z) in Hz. rewrite byte_to_Z_to_byte in Hz.
      change (byte_to_Z x00) with 0 in Hz.
      destruct (Z.eq_dec k 256); [assumption|].
      rewrite Z.mod_small in Hz by lia. lia. }
    subst k. pose proof (byte_to_Z_range j).
    assert (byte_to_Z j <> 0).
    { intros H0. apply Hj. apply byte_to_Z_inj. exact H0. }
    lia.
  - assert (Hk' : k <= 255).
    { destruct (Z.eq_dec k 256) as [->|]; [|lia]. now destruct Hnz. }
    assert (Hbk : byte_to_Z (Z_to_byte k) = k).
    { rewrite byte_to_Z_to_byte. apply Z.mod_small. lia. }
    destruct (cl !! Z_to_byte k) eqn:Hl.
    + rewrite Hbk. apply IH; [lia|lia|].
      intros j Hj. destruct (Z.eq_dec (byte_to_Z j) k) as [Hjk|Hjk].
      * rewrite <- Hjk, Z_to_byte_to_Z in Hl. rewrite Hl. eauto.
      * apply Hbelow. lia.
    + right. split; [assumption|]. split; [assumption|].
      rewrite Hbk. exact Hbelow.
Qed.

Lemma findNextClientID_spec (cm : ClientManager) :
  let r := findNextClientID cm in
  (r = x00 /\ forall j : byte, j <> x00 -> is_Some (clients cm !! j))
  \/ (r <> x00 /\ clients cm !! r = None
      /\ forall j : byte,
           1 <= byte_to_Z j < byte_to_Z r -> is_Some (clients cm !! j)).
Proof.
  unfold findNextClientID. change x01 with (Z_to_byte 1).
  apply findNextClientID_loop_spec; [lia|lia|]. intros j Hj. lia.
Qed.

Lemma Sprintf_ip_nonempty (i : Z) : Sprintf_ip i <> EmptyString.
Proof. unfold Sprintf_ip. discriminate. Qed.

Lemma Sprintf_ip_inj (i j : Z) : Sprintf_ip i = Sprintf_ip j -> i = j.
Proof.
  unfold Sprintf_ip. intros H. apply String.app_inj in H.
  now apply pretty_Z_inj in H.
Qed.

Lemma assignNextIP_loop_spec (m : gmap string byte) (n : nat) :
  forall i : Z,
    (forall j, 2 <= j < i -> is_Some (m !! Sprintf_ip j)) ->
    let r := assignNextIP_loop n i m in
    (r = EmptyString
     /\ forall j, 2 <= j < i + Z.of_nat n -> is_Some (m !! Sprintf_ip j))
    \/ (exists i', i <= i' < i + Z.of_nat n /\ r = Sprintf_ip i'
          /\ m !! r = None
          /\ forall j, 2 <= j < i' -> is_Some (m !! Sprintf_ip j)).
Proof.
  induction n as [|n IH]; intros i Hbelow; cbn [assignNextIP_loop].
  - left. split; [reflexivity|]. intros j Hj. apply Hbelow. lia.
  - destruct (m !! Sprintf_ip i) eqn:Hl.
    + destruct (IH (i + 1)) as [[Hr Hall]|(i' & Hi' & Hr & Hnone & Hsm)].
      * intros j Hj. destruct (Z.eq_dec j i) as [->|]; [rewrite Hl; eauto|].
        apply Hbelow. lia.
      * left. split; [exact Hr|]. intros j Hj. apply Hall. lia.
      * right. exists i'. split; [lia|]. auto.
    + right. exists i. split; [lia|]. auto.
Qed.

Lemma assignNextIP_spec (cm : ClientManager) :
  let r := assignNextIP cm in
  (r = EmptyString
   /\ forall j, 2 <= j <= 255 -> is_Some (ipToClient cm !! Sprintf_ip j))
  \/ (exists i, 2 <= i <= 255 /\ r = Sprintf_ip i
        /\ ipToClient cm !! r = None
        /\ forall j, 2 <= j < i -> is_Some (ipToClient cm !! Sprintf_ip j)).
Proof.
  unfold assignNextIP.
  destruct (assignNextIP_loop_spec (ipToClient cm) 254 2)
    as [[Hr Hall]|(i & Hi & Hr & Hnone & Hsm)].
  - intros j Hj. lia.
  - left. split; [exact Hr|]. intros j Hj. apply Hall. lia.
  - right. exists i. split; [lia|]. auto.
Qed.

(** *** Consistency of the three indices *)

Lemma NewClientManager_consistent (km : KeyManager) :
  indices_consistent (NewClientManager km).
Proof.
  unfold indices_consistent, NewClientManager.
  cbn [clients ipToClient keyToClient].
  split; [|split]; intros ? ? Hl; rewrite lookup_empty in Hl; discriminate.
Qed.

(** The outcome of [AddClient], case by case. *)
Lemma AddClient_cases (key : list byte) (address : string) (now : Z)
    (cm : ClientManager) :
  (exists e, AddClient key address now cm = (inr e, cm))
  \/ (exists c,
        AddClient key address now cm =
          (inl c,
           {| clients := <[ID c := c]> (clients cm);
              ipToClient := <[IP c := ID c]> (ipToClient cm);
              keyToClient := <[Sprintf_x key := ID c]> (keyToClient cm);
              timeout := timeout cm;
              keyManager := keyManager cm |})
        /\ c = {| ID := findNextClientID cm; IP := assignNextIP cm;
                  Key := key; Address := address; Connected := true;
                  LastSeen := now; LastSeq := 0 |}
        /\ (size (clients cm) < 256)%nat
        /\ keyToClient cm !! Sprintf_x key = None
        /\ findNextClientID cm <> x00
        /\ assignNextIP cm <> EmptyString).
Proof.
  unfold AddClient.
  destruct (Z.leb_spec 256 (Z.of_nat (size (clients cm)))); [left; eauto|].
  destruct (keyToClient cm !! Sprintf_x key) eqn:Hk; [left; eauto|].
  destruct (decide (findNextClientID cm = x00)); [left; eauto|].
  destruct (decide (assignNextIP cm = EmptyString)); [left; eauto|].
  right.
  exists {| ID := findNextClientID cm; IP := assignNextIP cm;
            Key := key; Address := address; Connected := true;
            LastSeen := now; LastSeq := 0 |}.
  cbn [ID IP]. repeat split; auto. lia.
Qed.

Lemma AddClient_fresh (cm : ClientManager) :
  findNextClientID cm <> x00 -> assignNextIP cm <> EmptyString ->
  clients cm !! findNextClientID cm = None
  /\ ipToClient cm !! assignNextIP cm = None.
Proof.
  intros Hid Hip. split.
  - destruct (findNextClientID_spec cm) as [[? _]|(_ & ? & _)]; tauto.
  - destruct (assignNextIP_spec cm) as [[? _]|(i & _ & _ & ? & _)]; tauto.
Qed.

Lemma AddClient_consistent (key : list byte) (address : string) (now : Z)
    (cm : ClientManager) :
  indices_consistent cm ->
  indices_consistent (AddClient key address now cm).2.
Proof.
  intros (Hc & Hi & Hk).
  destruct (AddClient_cases key address now cm)
    as [[e ->]|(c & -> & Hceq & _ & Hkey & Hid & Hip)];
    [exact (conj Hc (conj Hi Hk))|].
  destruct (AddClient_fresh cm Hid Hip) as [Hfid Hfip].
  assert (HID : ID c = findNextClientID cm) by (subst c; reflexivity).
  assert (HIP : IP c = assignNextIP cm) by (subst c; reflexivity).
  assert (HKey : Key c = key) by (subst c; reflexivity).
  rewrite <- HID in Hfid. rewrite <- HIP in Hfip. clear Hceq HID HIP.
  cbn [snd]. unfold indices_consistent. cbn [clients ipToClient keyToClient].
  split; [|split].
  - intros id c' Hl. apply lookup_insert_Some in Hl as [[<- <-]|[Hne Hl]].
    + rewrite !lookup_insert_eq, HKey, lookup_insert_eq. auto.
    + destruct (Hc _ _ Hl) as (Hid' & Hip' & Hk'). split; [exact Hid'|].
      rewrite !lookup_insert_ne; [auto| |]; intros Heq.
      * rewrite Heq, Hk' in Hkey. discriminate.
      * rewrite Heq, Hip' in Hfip. discriminate.
  - intros ip id Hl. apply lookup_insert_Some in Hl as [[<- <-]|[Hne Hl]].
    + exists c. now rewrite lookup_insert_eq.
    + destruct (Hi _ _ Hl) as (c' & Hl' & <-). exists c'. split; [|reflexivity].
      rewrite lookup_insert_ne; [exact Hl'|]. intros Heq. rewrite Heq in Hfid. congruence.
  - intros kh id Hl. apply lookup_insert_Some in Hl as [[<- <-]|[Hne Hl]].
    + exists c. rewrite lookup_insert_eq, HKey. auto.
    + destruct (Hk _ _ Hl) as (c' & Hl' & <-). exists c'. split; [|reflexivity].
      rewrite lookup_insert_ne; [exact Hl'|]. intros Heq. rewrite Heq in Hfid. congruence.
Qed.

Lemma delete_entries_consistent (cm : ClientManager) (id : byte) (c : Client) :
  clients cm !! id = Some c ->
  indices_consistent cm -> indices_consistent (delete_entries id c cm).
Proof.
  intros Hl (Hc & Hi & Hk). destruct (Hc _ _ Hl) as (HID & HIP & HKEY).
  unfold indices_consistent, delete_entries.
  cbn [clients ipToClient keyToClient]. split; [|split].
  - intros id' c' Hl'. apply lookup_delete_Some in Hl' as [Hne Hl'].
    destruct (Hc _ _ Hl') as (Hid' & Hip' & Hk'). split; [exact Hid'|].
    rewrite !lookup_delete_ne; [auto| |]; intros Heq.
    + rewrite Heq, Hk' in HKEY. congruence.
    + rewrite Heq, Hip' in HIP. congruence.
  - intros ip id' Hl'. apply lookup_delete_Some in Hl' as [Hne Hl'].
    destruct (Hi _ _ Hl') as (c' & Hc' & <-). exists c'. split; [|reflexivity].
    rewrite lookup_delete_ne; [exact Hc'|]. intros Heq. subst id'.
    rewrite Hl in Hc'. congruence.
  - intros kh id' Hl'. apply lookup_delete_Some in Hl' as [Hne Hl'].
    destruct (Hk _ _ Hl') as (c' & Hc' & <-). exists c'. split; [|reflexivity].
    rewrite lookup_delete_ne; [exact Hc'|]. intros Heq. subst id'.
    rewrite Hl in Hc'. congruence.
Qed.

Lemma RemoveClient_consistent (id : byte) (cm : ClientManager) :
  indices_consistent cm -> indices_consistent (RemoveClient id cm).2.
Proof.
  intros H. unfold RemoveClient. destruct (clients cm !! id) eqn:Hl; cbn [snd].
  - now apply delete_entries_consistent.
  - exact H.
Qed.

Lemma UpdateClientActivity_consistent (id : byte) (s now : Z)
    (cm : ClientManager) :
  indices_consistent cm ->
  indices_consistent (UpdateClientActivity id s now cm).2.
Proof.
  intros (Hc & Hi & Hk). unfold UpdateClientActivity.
  destruct (clients cm !! id) as [c|] eqn:Hl; [|exact (conj Hc (conj Hi Hk))].
  destruct (s <=? LastSeq c); [exact (conj Hc (conj Hi Hk))|].
  cbn [snd]. unfold indices_consistent. cbn [clients ipToClient keyToClient].
  split; [|split].
  - intros id' c' Hl'. apply lookup_insert_Some in Hl' as [[<- <-]|[Hne Hl']].
    + cbn [ID IP Key]. exact (Hc _ _ Hl).
    + exact (Hc _ _ Hl').
  - intros ip id' Hl'. destruct (Hi _ _ Hl') as (c' & Hc' & <-).
    destruct (decide (id = id')) as [<-|Hne].
    + eexists. rewrite lookup_insert_eq. split; [reflexivity|].
      cbn [IP]. congruence.
    + exists c'. now rewrite lookup_insert_ne.
  - intros kh id' Hl'. destruct (Hk _ _ Hl') as (c' & Hc' & <-).
    destruct (decide (id = id')) as [<-|Hne].
    + eexists. rewrite lookup_insert_eq. split; [reflexivity|].
      cbn [Key]. congruence.
    + exists c'. now rewrite lookup_insert_ne.
Qed.

Lemma remove_timed_out_consistent (cm : ClientManager) (id : byte) :
  indices_consistent cm -> indices_consistent (remove_timed_out cm id).
Proof.
  intros H. unfold remove_timed_out. destruct (clients cm !! id) eqn:Hl.
  - now apply delete_entries_consistent.
  - exact H.
Qed.

Lemma CheckTimeouts_consistent (now : Z) (cm : ClientManager) :
  indices_consistent cm -> indices_consistent (CheckTimeouts now cm).
Proof.
  unfold CheckTimeouts. generalize (timed_out now cm) as ids.
  intros ids. revert cm. induction ids as [|id ids IH]; intros cm H; cbn.
  - exact H.
  - apply IH. now apply remove_timed_out_consistent.
Qed.

(** C10.  Each of [AddClient], [RemoveClient], [UpdateClientActivity]
    and [CheckTimeouts] preserves the consistency of the three indices: for
    every live client [c], [ipToClient] maps [IP c] to [ID c] and
    [keyToClient] maps the hex encoding of [Key c] to [ID c], and every
    entry of either auxiliary map belongs to a client that is live. *)
Theorem peer_table_operations_keep_indices_consistent (cm : ClientManager) :
  indices_consistent cm ->
  (forall key address now,
      indices_consistent (AddClient key address now cm).2)
  /\ (forall id, indices_consistent (RemoveClient id cm).2)
  /\ (forall id s now,
        indices_consistent (UpdateClientActivity id s now cm).2)
  /\ (forall now, indices_consistent (CheckTimeouts now cm)).
Proof.
  intros H. split; [|split; [|split]]; intros.
  - now apply AddClient_consistent.
  - now apply RemoveClient_consistent.
  - now apply UpdateClientActivity_consistent.
  - now apply CheckTimeouts_consistent.
Qed.

Lemma peer_table_operations_keep_indices_consistent_witness :
  indices_consistent
    (RemoveClient x01 (clientManager authenticated_server)).2.
Proof.
  apply (peer_table_operations_keep_indices_consistent
           (clientManager authenticated_server)).
  apply (AddClient_consistent example_key "203.0.113.9:5000" 0
           (NewClientManager {| keys := {[ x01 := example_key ]} |})).
  apply NewClientManager_consistent.
Defined.

(** *** Allocation and capacity *)

Lemma elem_of_ip_pool (ip : string) :
  ip ∈ ip_pool <-> exists i, 2 <= i <= 255 /\ ip = Sprintf_ip i.
Proof.
  unfold ip_pool. rewrite elem_of_list_to_set, list_elem_of_fmap.
  split.
  - intros (i & -> & Hi). apply elem_of_seqZ in Hi. exists i. split; [lia|auto].
  - intros (i & Hi & ->). exists i. split; [reflexivity|].
    apply elem_of_seqZ. lia.
Qed.

#[local] Instance Sprintf_ip_Inj : Inj (=) (=) Sprintf_ip.
Proof. intros i j. apply Sprintf_ip_inj. Qed.

Lemma size_ip_pool : size ip_pool = 254%nat.
Proof.
  unfold ip_pool. rewrite size_list_to_set.
  - now rewrite length_fmap, length_seqZ.
  - apply (NoDup_fmap_2 _), NoDup_seqZ.
Qed.

Lemma size_nonzero_ids : size nonzero_ids = 255%nat.
Proof. vm_compute. reflexivity. Qed.

Lemma elem_of_nonzero_ids (j : byte) : j <> x00 -> j ∈ nonzero_ids.
Proof.
  intros Hj. unfold nonzero_ids. rewrite elem_of_list_to_set, list_elem_of_fmap.
  exists (byte_to_Z j). split; [now rewrite Z_to_byte_to_Z|].
  apply elem_of_seqZ. pose proof (byte_to_Z_range j).
  assert (byte_to_Z j <> 0); [|lia].
  intros H0. apply Hj, byte_to_Z_inj. exact H0.
Qed.

Lemma table_invariant_size (cm : ClientManager) :
  table_invariant cm -> (size (clients cm) <= 254)%nat.
Proof.
  intros (_ & -> & Hsub). rewrite <- size_dom, <- size_ip_pool.
  now apply subseteq_size.
Qed.

Lemma table_invariant_id_available (cm : ClientManager) :
  table_invariant cm -> findNextClientID cm <> x00.
Proof.
  intros Hinv Hz. pose proof (table_invariant_size cm Hinv) as Hsize.
  destruct (findNextClientID_spec cm) as [[_ Hall]|[? _]]; [|tauto].
  assert (Hsub : nonzero_ids ⊆ dom (clients cm)).
  { intros j Hj. apply elem_of_dom, Hall.
    unfold nonzero_ids in Hj.
    rewrite elem_of_list_to_set, list_elem_of_fmap in Hj.
    destruct Hj as (k & -> & Hk). apply elem_of_seqZ in Hk.
    intros H0. apply (f_equal byte_to_Z) in H0.
    rewrite byte_to_Z_to_byte, Z.mod_small in H0 by lia.
    change (byte_to_Z x00) with 0 in H0. lia. }
  apply subseteq_size in Hsub. rewrite size_nonzero_ids, size_dom in Hsub. lia.
Qed.

Lemma table_invariant_ip_exhausted (cm : ClientManager) :
  table_invariant cm ->
  (assignNextIP cm = EmptyString <-> size (clients cm) = 254%nat).
Proof.
  intros (Hcons & Hsz & Hsub). split.
  - intros Hempty.
    destruct (assignNextIP_spec cm) as [[_ Hall]|(i & _ & Hr & _)];
      [|rewrite Hr in Hempty; now apply Sprintf_ip_nonempty in Hempty].
    assert (Hsup : ip_pool ⊆ dom (ipToClient cm)).
    { intros ip Hip. apply elem_of_ip_pool in Hip as (i & Hi & ->).
      apply elem_of_dom, Hall, Hi. }
    apply subseteq_size in Hsup. apply subseteq_size in Hsub.
    rewrite size_ip_pool, size_dom in *. lia.
  - intros H254.
    assert (Heq : dom (ipToClient cm) = ip_pool).
    { apply set_subseteq_size_eq; [exact Hsub|].
      rewrite size_ip_pool, size_dom. lia. }
    destruct (assignNextIP_spec cm) as [[Hr _]|(i & Hi & Hr & Hnone & _)];
      [exact Hr|].
    assert (Hin : assignNextIP cm ∈ dom (ipToClient cm)).
    { rewrite Heq. apply elem_of_ip_pool. eauto. }
    apply elem_of_dom in Hin. rewrite Hnone in Hin. now destruct Hin.
Qed.

Lemma NewClientManager_invariant (km : KeyManager) :
  table_invariant (NewClientManager km).
Proof.
  split; [apply NewClientManager_consistent|].
  unfold NewClientManager. cbn [clients ipToClient].
  split; [now rewrite !map_size_empty|]. rewrite dom_empty_L.
  apply empty_subseteq.
Qed.

Lemma AddClient_invariant (key : list byte) (address : string) (now : Z)
    (cm : ClientManager) :
  table_invariant cm -> table_invariant (AddClient key address now cm).2.
Proof.
  intros Hinv. split; [apply AddClient_consistent, Hinv|].
  destruct Hinv as (_ & Hsz & Hsub).
  destruct (AddClient_cases key address now cm)
    as [[e ->]|(c & -> & Hceq & _ & Hkey & Hid & Hip)]; [auto|].
  destruct (AddClient_fresh cm Hid Hip) as [Hfid Hfip].
  assert (HID : ID c = findNextClientID cm) by (subst c; reflexivity).
  assert (HIP : IP c = assignNextIP cm) by (subst c; reflexivity).
  cbn [snd clients ipToClient]. rewrite HID, HIP. split.
  - rewrite !map_size_insert_None by assumption. now rewrite Hsz.
  - rewrite dom_insert_L.
    destruct (assignNextIP_spec cm) as [[? _]|(i & Hi & Hr & _)]; [tauto|].
    apply union_least; [|exact Hsub].
    apply singleton_subseteq_l, elem_of_ip_pool. eauto.
Qed.

Lemma delete_entries_invariant (cm : ClientManager) (id : byte) (c : Client) :
  clients cm !! id = Some c ->
  table_invariant cm -> table_invariant (delete_entries id c cm).
Proof.
  intros Hl (Hcons & Hsz & Hsub).
  split; [now apply delete_entries_consistent|].
  destruct Hcons as (Hc & _ & _). destruct (Hc _ _ Hl) as (_ & Hip & _).
  unfold delete_entries. cbn [clients ipToClient]. split.
  - rewrite !map_size_delete_Some by eauto. now rewrite Hsz.
  - rewrite dom_delete_L. now apply subseteq_difference_l.
Qed.

Lemma RemoveClient_invariant (id : byte) (cm : ClientManager) :
  table_invariant cm -> table_invariant (RemoveClient id cm).2.
Proof.
  intros H. unfold RemoveClient. destruct (clients cm !! id) eqn:Hl; cbn [snd].
  - now apply delete_entries_invariant.
  - exact H.
Qed.

Lemma UpdateClientActivity_invariant (id : byte) (s now : Z)
    (cm : ClientManager) :
  table_invariant cm -> table_invariant (UpdateClientActivity id s now cm).2.
Proof.
  intros Hinv. split; [apply UpdateClientActivity_consistent, Hinv|].
  destruct Hinv as (_ & Hsz & Hsub). unfold UpdateClientActivity.
  destruct (clients cm !! id) as [c|] eqn:Hl; [|auto].
  destruct (s <=? LastSeq c); [auto|]. cbn [snd clients ipToClient].
  split; [|exact Hsub]. now rewrite map_size_insert_Some by eauto.
Qed.

Lemma CheckTimeouts_invariant (now : Z) (cm : ClientManager) :
  table_invariant cm -> table_invariant (CheckTimeouts now cm).
Proof.
  unfold CheckTimeouts. generalize (timed_out now cm) as ids.
  intros ids. revert cm. induction ids as [|id ids IH]; intros cm H; cbn.
  - exact H.
  - apply IH. unfold remove_timed_out.
    destruct (clients cm !! id) eqn:Hl; [|exact H].
    now apply delete_entries_invariant.
Qed.

Lemma run_invariant (ops : list op) (cm : ClientManager) :
  table_invariant cm -> table_invariant (run ops cm).
Proof.
  unfold run. revert cm. induction ops as [|o ops IH]; intros cm H; cbn.
  - exact H.
  - apply IH. destruct o; cbn [apply_op].
    + now apply AddClient_invariant.
    + now apply RemoveClient_invariant.
    + now apply UpdateClientActivity_invariant.
    + now apply CheckTimeouts_invariant.
Qed.

Lemma ip_in_use_index (cm : ClientManager) (ip : string) :
  indices_consistent cm -> (ip_in_use cm ip <-> is_Some (ipToClient cm !! ip)).
Proof.
  intros (Hc & Hi & _). split.
  - intros (id & c & Hl & <-). destruct (Hc _ _ Hl) as (_ & -> & _). eauto.
  - intros [id Hl]. destruct (Hi _ _ Hl) as (c & Hc' & <-). exists id, c. auto.
Qed.

Lemma key_in_use_index (cm : ClientManager) (key : list byte) :
  indices_consistent cm ->
  (key_in_use cm key <-> is_Some (keyToClient cm !! Sprintf_x key)).
Proof.
  intros (Hc & _ & Hk). split.
  - intros (id & c & Hl & <-). destruct (Hc _ _ Hl) as (_ & _ & ->). eauto.
  - intros [id Hl]. destruct (Hk _ _ Hl) as (c & Hc' & Heq). exists id, c. auto.
Qed.

Lemma live_entries_unique (cm : ClientManager) (a b : byte) (ca cb : Client) :
  indices_consistent cm ->
  clients cm !! a = Some ca -> clients cm !! b = Some cb -> a <> b ->
  ID ca <> ID cb /\ IP ca <> IP cb
  /\ Sprintf_x (Key ca) <> Sprintf_x (Key cb).
Proof.
  intros (Hc & _ & _) Ha Hb Hab.
  destruct (Hc _ _ Ha) as (Hida & Hipa & Hka).
  destruct (Hc _ _ Hb) as (Hidb & Hipb & Hkb).
  repeat split; intros Heq.
  - congruence.
  - rewrite Heq, Hipb in Hipa. congruence.
  - rewrite Heq, Hkb in Hka. congruence.
Qed.

Lemma AddClient_allocates_smallest (cm : ClientManager) (key : list byte)
    (address : string) (now : Z) (c : Client) (cm' : ClientManager) :
  indices_consistent cm ->
  AddClient key address now cm = (inl c, cm') ->
  smallest_unused_id cm (ID c) /\ smallest_unused_ip cm (IP c).
Proof.
  intros Hcons Hadd.
  destruct (AddClient_cases key address now cm)
    as [[e He]|(c0 & He & Hceq & _ & _ & Hid & Hip)]; [congruence|].
  rewrite He in Hadd. injection Hadd as -> _. subst c. cbn [ID IP]. split.
  - destruct (findNextClientID_spec cm) as [[? _]|(_ & Hnone & Hsm)]; [tauto|].
    split; [|auto]. pose proof (byte_to_Z_range (findNextClientID cm)).
    assert (byte_to_Z (findNextClientID cm) <> 0); [|lia].
    intros H0. apply Hid, byte_to_Z_inj. exact H0.
  - destruct (assignNextIP_spec cm) as [[? _]|(i & Hi & Hr & Hnone & Hsm)];
      [tauto|].
    exists i. split; [exact Hi|]. split; [exact Hr|]. split.
    + rewrite (ip_in_use_index cm _ Hcons), Hnone. now intros [? ?].
    + intros j Hj. apply (ip_in_use_index cm _ Hcons), Hsm, Hj.
Qed.

Lemma AddClient_full_iff (cm : ClientManager) (key : list byte)
    (address : string) (now : Z) :
  table_invariant cm ->
  ((exists e, (AddClient key address now cm).1 = inr e /\ is_Full e)
   <-> ~ key_in_use cm key /\ size (clients cm) = 254%nat).
Proof.
  intros Hinv. pose proof (table_invariant_size cm Hinv) as Hsize.
  pose proof (table_invariant_id_available cm Hinv) as Hid.
  pose proof (table_invariant_ip_exhausted cm Hinv) as Hip.
  rewrite (key_in_use_index cm key (proj1 Hinv)).
  unfold AddClient.
  destruct (Z.leb_spec 256 (Z.of_nat (size (clients cm)))); [lia|].
  destruct (keyToClient cm !! Sprintf_x key) eqn:Hk; cbn [fst].
  - split.
    + intros (e & [= <-] & [?|?]); discriminate.
    + intros [Hn _]. destruct Hn. eauto.
  - destruct (decide (findNextClientID cm = x00)); [tauto|].
    destruct (decide (assignNextIP cm = EmptyString)) as [He|Hne]; cbn [fst].
    + split.
      * intros _. split; [now intros [? ?]|]. now apply Hip.
      * intros _. exists ErrNoIPAvailable. split; [reflexivity|now right].
    + split.
      * intros (e & [=] & _).
      * intros [_ H254]. apply Hip in H254. contradiction.
Qed.

(** C5, amended.  After any sequence of [AddClient], [RemoveClient],
    [UpdateClientActivity] and [CheckTimeouts] on a new peer table: ids,
    inner IPs and key fingerprints are pairwise unique across live entries;
    a newly admitted peer receives the smallest unused id in 1..255 and the
    smallest unused inner IP in 10.0.0.2..10.0.0.255; and authentication of a
    key that no live entry holds returns the Full error exactly when 254
    live entries exist, which is the size of the IP pool and the most the
    table ever holds. *)
Theorem peer_table_invariants (km : KeyManager) (ops : list op) :
  let cm := run ops (NewClientManager km) in
  (forall a b ca cb,
      clients cm !! a = Some ca -> clients cm !! b = Some cb -> a <> b ->
      ID ca <> ID cb /\ IP ca <> IP cb
      /\ Sprintf_x (Key ca) <> Sprintf_x (Key cb))
  /\ (forall key address now c cm',
        AddClient key address now cm = (inl c, cm') ->
        smallest_unused_id cm (ID c) /\ smallest_unused_ip cm (IP c))
  /\ (forall key address now,
        (exists e, (AddClient key address now cm).1 = inr e /\ is_Full e)
        <-> ~ key_in_use cm key /\ size (clients cm) = 254%nat)
  /\ (size (clients cm) <= 254)%nat.
Proof.
  intros cm.
  assert (Hinv : table_invariant cm)
    by apply run_invariant, NewClientManager_invariant.
  split; [|split; [|split]].
  - intros a b ca cb. apply live_entries_unique, Hinv.
  - intros key address now c cm'. apply AddClient_allocates_smallest, Hinv.
  - intros key address now. now apply AddClient_full_iff.
  - now apply table_invariant_size.
Qed.

(** C5, as stated, fails.  After 254 authentications the table holds 254
    live entries, not 255, and one more authentication with a new key is
    refused because no inner IP is left. *)
Lemma AddClient_full_at_254 :
  size (clients filled_table) = 254%nat
  /\ (AddClient (nth_key 255) "192.0.2.1:40001" 0 filled_table).1
     = inr ErrNoIPAvailable.
Proof. split; vm_compute; reflexivity. Qed.

(** ** The datapath *)

Lemma set_clientManager_id (s : Server) :
  set_clientManager (clientManager s) s = s.
Proof. now destruct s. Qed.

(** *** Egress *)

(** One run of the egress path on a datagram that resolves to a live peer. *)
Lemma ProcessOutgoingPacket_step `{AEAD} `{Net} (s : Server)
    (d : list byte) (rest : list (list byte)) (id : byte) (client : Client)
    (addr : UDPAddr) :
  created (tunInterface s) = true ->
  readQueue (tunInterface s) = d :: rest ->
  determineClient (clientManager s) d = inl id ->
  clients (clientManager s) !! id = Some client ->
  len (Key client) = 32 ->
  net_ResolveUDPAddr (Address client) = Some addr ->
  net_WriteToUDP_ok
    (aead_Seal (Key client) (GenerateNonce (uint32 (LastSeq client + 1)))
       (EncodePacket (outgoing_packet (versionVars s) client d)))
    addr = true ->
  ProcessOutgoingPacket s =
    (None,
     {| versionVars := versionVars s;
        srv_keyManager := srv_keyManager s;
        clientManager := clientManager s;
        tunInterface :=
          {| created := true; readQueue := rest;
             writeQueue := writeQueue (tunInterface s) |};
        udpConn :=
          udpConn s ++
          [(addr,
            aead_Seal (Key client)
              (GenerateNonce (uint32 (LastSeq client + 1)))
              (EncodePacket (outgoing_packet (versionVars s) client d)))] |}).
Proof.
  intros Hcr Hq Hdet Hcl Hkey Hres Hok.
  destruct s as [g km cm [cr rq wq] udp].
  cbn [versionVars srv_keyManager clientManager tunInterface udpConn
       created readQueue writeQueue] in *.
  subst cr rq.
  unfold ProcessOutgoingPacket, ReadPacket.
  cbn [negb set_tunInterface versionVars srv_keyManager clientManager
       tunInterface udpConn created readQueue writeQueue].
  rewrite Hdet. unfold GetClient. rewrite Hcl.
  unfold createAndSendPacket, EncryptPayload, KeySize.
  cbn [versionVars]. rewrite Hkey.
  cbn [Z.eqb Pos.eqb negb]. unfold sendToClient. rewrite Hres.
  unfold WriteToUDP.
  cbn [set_tunInterface versionVars srv_keyManager clientManager
       tunInterface udpConn created readQueue writeQueue].
  change (Sequence (outgoing_packet g client d))
    with (uint32 (LastSeq client + 1)).
  rewrite Hok. reflexivity.
Qed.

(** C1 (the code departs from the claim).  For every IP datagram read from
    the TUN device that resolves to a live peer, the egress path sends one
    UDP datagram to the peer's address: the AEAD seal, under the peer's key
    and the sequence [LastSeq + 1], of the whole encoded Data packet whose
    payload is the cleartext datagram.  The 12-byte header is inside the
    sealed bytes; no cleartext header precedes them on the wire. *)
Theorem ProcessOutgoingPacket_seals_encoded_packet `{AEAD} `{Net}
    (s : Server) (d : list byte) (rest : list (list byte)) (id : byte)
    (client : Client) (addr : UDPAddr) :
  created (tunInterface s) = true ->
  readQueue (tunInterface s) = d :: rest ->
  determineClient (clientManager s) d = inl id ->
  clients (clientManager s) !! id = Some client ->
  len (Key client) = 32 ->
  net_ResolveUDPAddr (Address client) = Some addr ->
  let seq := uint32 (LastSeq client + 1) in
  let wire :=
    aead_Seal (Key client) (GenerateNonce seq)
      (EncodePacket
         {| Magic := MagicBytes; Type_ := x01; ClientID := ID client;
            Sequence := seq; Length := uint16 (len d);
            Version := ProtocolVersionByte (versionVars s);
            Payload := d |}) in
  net_WriteToUDP_ok wire addr = true ->
  (ProcessOutgoingPacket s).1 = None
  /\ udpConn (ProcessOutgoingPacket s).2 = udpConn s ++ [(addr, wire)].
Proof.
  intros Hcr Hq Hdet Hcl Hkey Hres seq wire Hok.
  rewrite (ProcessOutgoingPacket_step s d rest id client addr) by assumption.
  split; reflexivity.
Qed.

(** At [example_server], with the stand-in cipher: the datagram sent is the
    seal of the encoded packet, and it is not the cleartext-header encoding
    of the sealed datagram. *)
Lemma ProcessOutgoingPacket_seals_encoded_packet_witness :
  let s := example_server in
  let d := example_datagram [x01] in
  let r := ProcessOutgoingPacket (H := example_aead) (H0 := example_net) s in
  (r.1 = None
   /\ udpConn r.2 =
      [("203.0.113.9:5000"%string,
        example_Seal example_key (GenerateNonce 1)
          (EncodePacket
             {| Magic := MagicBytes; Type_ := x01; ClientID := x01;
                Sequence := 1; Length := 21; Version := x00;
                Payload := d |}))])
  /\ bool_decide
       (example_Seal example_key (GenerateNonce 1)
          (EncodePacket
             {| Magic := MagicBytes; Type_ := x01; ClientID := x01;
                Sequence := 1; Length := 21; Version := x00;
                Payload := d |})
        = sealed_payload_wire (H := example_aead) VersionVars_init
            example_client d) = false.
Proof.
  split; [|vm_compute; reflexivity].
  apply (ProcessOutgoingPacket_seals_encoded_packet
           (H := example_aead) (H0 := example_net) example_server
           (example_datagram [x01]) [example_datagram [x02]] x01
           example_client "203.0.113.9:5000"%string);
    vm_compute; reflexivity.
Defined.

(** C2 (the code departs from the claim).  Two successive sends to the same
    live peer, with no other operation on the table in between, are stamped
    with the same sequence [LastSeq + 1] and sealed under the same nonce: a
    send does not record the sequence it used, and the peer's [LastSeq] is
    what it was before the two sends. *)
Theorem ProcessOutgoingPacket_repeats_sequence `{AEAD} `{Net}
    (s : Server) (d1 d2 : list byte) (rest : list (list byte)) (id : byte)
    (client : Client) (addr : UDPAddr) :
  created (tunInterface s) = true ->
  readQueue (tunInterface s) = d1 :: d2 :: rest ->
  determineClient (clientManager s) d1 = inl id ->
  determineClient (clientManager s) d2 = inl id ->
  clients (clientManager s) !! id = Some client ->
  len (Key client) = 32 ->
  net_ResolveUDPAddr (Address client) = Some addr ->
  (forall data, net_WriteToUDP_ok data addr = true) ->
  let seq := uint32 (LastSeq client + 1) in
  let sealed d :=
    aead_Seal (Key client) (GenerateNonce seq)
      (EncodePacket (outgoing_packet (versionVars s) client d)) in
  let s1 := (ProcessOutgoingPacket s).2 in
  let s2 := (ProcessOutgoingPacket s1).2 in
  udpConn s2 = udpConn s ++ [(addr, sealed d1); (addr, sealed d2)]
  /\ Sequence (outgoing_packet (versionVars s) client d1) = seq
  /\ Sequence (outgoing_packet (versionVars s) client d2) = seq
  /\ clients (clientManager s2) !! id = Some client.
Proof.
  intros Hcr Hq Hd1 Hd2 Hcl Hkey Hres Hok seq sealed s1 s2.
  subst s2 s1.
  rewrite (ProcessOutgoingPacket_step s d1 (d2 :: rest) id client addr)
    by auto.
  cbn [snd].
  rewrite (ProcessOutgoingPacket_step _ d2 rest id client addr) by auto.
  cbn [snd udpConn clientManager versionVars]. rewrite <- app_assoc.
  repeat split; auto.
Qed.

Lemma ProcessOutgoingPacket_repeats_sequence_witness :
  let s := example_server in
  let s1 :=
    (ProcessOutgoingPacket (H := example_aead) (H0 := example_net) s).2 in
  let s2 :=
    (ProcessOutgoingPacket (H := example_aead) (H0 := example_net) s1).2 in
  udpConn s2 =
    [("203.0.113.9:5000"%string,
      example_Seal example_key (GenerateNonce 1)
        (EncodePacket
           (outgoing_packet VersionVars_init example_client
              (example_datagram [x01]))));
     ("203.0.113.9:5000"%string,
      example_Seal example_key (GenerateNonce 1)
        (EncodePacket
           (outgoing_packet VersionVars_init example_client
              (example_datagram [x02]))))]
  /\ clients (clientManager s2) !! x01 = Some example_client.
Proof.
  destruct (ProcessOutgoingPacket_repeats_sequence
              (H := example_aead) (H0 := example_net) example_server
              (example_datagram [x01]) (example_datagram [x02]) [] x01
              example_client "203.0.113.9:5000"%string)
    as (Hudp & _ & _ & Hcl); try (vm_compute; reflexivity).
  split; [exact Hudp|exact Hcl].
Defined.

(** *** Ingress *)

Lemma DecodePacket_inl (g : VersionVars) (data : list byte) (p : Packet) :
  DecodePacket g data = inl p ->
  ParsePacket data = inl p /\ ValidatePacket g p = None.
Proof.
  unfold DecodePacket. destruct (ParsePacket data) as [q|]; [|discriminate].
  destruct (ValidatePacket g q) eqn:Hv; [discriminate|].
  intros [= <-]. auto.
Qed.

(** C6.  A Data packet addressed to a live peer, with an admitted sequence
    and a payload that fails AEAD decryption, is dropped: [ProcessPacket]
    returns an error, sends nothing over UDP and writes nothing to the TUN
    device.  The only change is the admission itself, made before the
    decryption: the peer's entry has [LastSeq] set to the packet's sequence
    and [LastSeen] to the current time, every other field of the entry,
    every other entry and both indices are as before.  The UDP handler
    [handleDataPacket] leaves the server in that same state. *)
Theorem ProcessPacket_undecryptable `{AEAD} (s : Server) (data : list byte)
    (packet : Packet) (client : Client) (now : Z) (clientAddr : UDPAddr) :
  DecodePacket (versionVars s) data = inl packet ->
  byte_to_Z (Type_ packet) = PacketTypeData ->
  clients (clientManager s) !! ClientID packet = Some client ->
  Sequence packet > LastSeq client ->
  (exists e, DecryptPayload (Payload packet) (Key client) (Sequence packet)
             = inr e) ->
  let r := ProcessPacket data now s in
  (exists e, r.1 = Some e)
  /\ udpConn r.2 = udpConn s
  /\ tunInterface r.2 = tunInterface s
  /\ versionVars r.2 = versionVars s
  /\ srv_keyManager r.2 = srv_keyManager s
  /\ clientManager r.2 =
     {| clients :=
          <[ClientID packet :=
              {| ID := ID client; IP := IP client; Key := Key client;
                 Address := Address client; Connected := Connected client;
                 LastSeen := now; LastSeq := Sequence packet |}]>
            (clients (clientManager s));
        ipToClient := ipToClient (clientManager s);
        keyToClient := keyToClient (clientManager s);
        timeout := timeout (clientManager s);
        keyManager := keyManager (clientManager s) |}
  /\ handleDataPacket packet clientAddr now s = r.2.
Proof.
  intros Hdec _ Hcl Hseq [e He] r.
  assert (Hr : r = (Some e,
                    set_clientManager
                      (UpdateClientActivity (ClientID packet)
                         (Sequence packet) now (clientManager s)).2 s)).
  { subst r. unfold ProcessPacket. rewrite Hdec. unfold GetClient.
    rewrite Hcl.
    rewrite (UpdateClientActivity_live _ _ client) by exact Hcl.
    destruct (Z.leb_spec (Sequence packet) (LastSeq client)); [lia|].
    cbn [snd]. rewrite He. reflexivity. }
  assert (Henc : EncodePacket packet = data).
  { apply EncodePacket_ParsePacket. now apply DecodePacket_inl in Hdec. }
  unfold handleDataPacket. rewrite Henc. fold r. rewrite Hr. cbn [fst snd].
  rewrite (UpdateClientActivity_live _ _ client) by exact Hcl.
  destruct (Z.leb_spec (Sequence packet) (LastSeq client)); [lia|].
  cbn [snd]. destruct s; cbn. repeat split; eauto.
Qed.

Lemma ProcessPacket_undecryptable_witness :
  let r :=
    ProcessPacket (H := example_aead) (EncodePacket garbage_data) 100
      authenticated_server in
  (exists e, r.1 = Some e)
  /\ udpConn r.2 = udpConn authenticated_server
  /\ tunInterface r.2 = tunInterface authenticated_server.
Proof.
  destruct (ProcessPacket_undecryptable (H := example_aead)
              authenticated_server (EncodePacket garbage_data) garbage_data
              example_client 100 "203.0.113.9:5000"%string)
    as (He & Hudp & Htun & _); try (vm_compute; reflexivity).
  - exists ErrDecryptionFailed. vm_compute. reflexivity.
  - auto.
Defined.

(** *** Authentication *)




(** ** The key registry *)

Lemma load_clients_spec (cs : list ClientConfig) :
  forall ks : gmap byte (list byte),
    ((load_clients cs ks).1 = None <-> Forall loadable cs)
    /\ ((load_clients cs ks).1 = None ->
        forall id,
          (load_clients cs ks).2 !! id =
            match last_key id cs with
            | Some key => Some key
            | None => ks !! id
            end).
Proof.
  induction cs as [|c cs IH]; intros ks; cbn [load_clients last_key].
  - split; [split; auto|]. auto.
  - destruct (hex_DecodeString (cfg_Key c)) as [key|e] eqn:Hhex.
    + destruct (Z.eqb_spec (len key) 32) as [Hlen|Hlen]; cbn [negb fst snd].
      * destruct (IH (<[cfg_ID c := key]> ks)) as [Hiff Hkeys]. split.
        -- rewrite Hiff. split.
           ++ intros Hall. constructor; [|exact Hall]. exists key. auto.
           ++ intros Hall. now inversion Hall.
        -- intros Hok id. rewrite (Hkeys Hok id).
           destruct (last_key id cs); [reflexivity|].
           destruct (decide (cfg_ID c = id)) as [Heq|Hne].
           ++ rewrite Heq. apply lookup_insert_eq.
           ++ now rewrite lookup_insert_ne.
      * split; [|discriminate]. split; [discriminate|].
        intros Hall. inversion Hall as [|? ? (key' & Hk' & Hl') _]; subst.
        rewrite Hhex in Hk'. congruence.
    + cbn [fst]. split; [|discriminate]. split; [discriminate|].
      intros Hall. inversion Hall as [|? ? (key' & Hk' & _) _]; subst.
      rewrite Hhex in Hk'. discriminate.
Qed.

(** C7, as stated, fails.  A configuration with two entries for id 1 loads
    without error, and the registry keeps the key of the second entry. *)
Lemma LoadKeysFromConfig_accepts_duplicate_id :
  let r :=
    LoadKeysFromConfig (H := fixed_config duplicate_id_config) "server.yaml"
      NewKeyManager in
  r.1 = None
  /\ (hex_DecodeString hex_key_b =
        inl (default [] (keys r.2 !! x01)))
  /\ bool_decide (hex_key_a = hex_key_b) = false.
Proof. repeat split; vm_compute; reflexivity. Qed.

(** C7, amended.  Once the file is read and parsed, loading fails exactly
    when the clients list contains a key that is not valid hex or that does
    not decode to exactly 32 bytes.  Two entries with the same id are not an
    error: on success the registry maps every id to the key of the last
    entry that carries it. *)
Theorem LoadKeysFromConfig_spec `{ConfigIO} (configPath : string)
    (km : KeyManager) (data : list byte) (config : Config) :
  os_ReadFile configPath = Some data ->
  yaml_Unmarshal data = Some config ->
  let r := LoadKeysFromConfig configPath km in
  (r.1 = None <-> Forall loadable (Clients config))
  /\ (r.1 = None ->
      forall id, keys r.2 !! id = last_key id (Clients config)).
Proof.
  intros Hread Hyaml r. subst r. unfold LoadKeysFromConfig.
  rewrite Hread, Hyaml.
  destruct (load_clients_spec (Clients config) ∅) as [Hiff Hkeys].
  destruct (load_clients (Clients config) ∅) as [err ks]. cbn [fst snd] in *.
  split; [exact Hiff|]. intros Hok id. cbn [keys].
  rewrite (Hkeys Hok id).
  destruct (last_key id (Clients config)); [reflexivity|].
  apply lookup_empty.
Qed.

Lemma LoadKeysFromConfig_spec_witness :
  (LoadKeysFromConfig (H := fixed_config duplicate_id_config) "server.yaml"
     NewKeyManager).1 = None
  <-> Forall loadable (Clients duplicate_id_config).
Proof.
  refine (proj1 (LoadKeysFromConfig_spec (H := fixed_config duplicate_id_config)
                   "server.yaml" NewKeyManager [] duplicate_id_config _ _));
    reflexivity.
Defined.

(** *** The egress path never writes to the peer table *)

Lemma ProcessOutgoingPacket_keeps_table `{AEAD} `{Net} (s : Server) :
  clientManager (ProcessOutgoingPacket s).2 = clientManager s.
Proof.
  unfold ProcessOutgoingPacket, ReadPacket.
  destruct (created (tunInterface s)); cbn [negb]; [|reflexivity].
  destruct (readQueue (tunInterface s)) as [|d rest]; [reflexivity|].
  cbn [set_tunInterface clientManager].
  destruct (determineClient (clientManager s) d) as [id|]; [|reflexivity].
  unfold GetClient.
  destruct (clients (clientManager s) !! id) as [client|]; [|reflexivity].
  unfold createAndSendPacket.
  destruct (EncryptPayload _ _ _) as [encrypted|]; [|reflexivity].
  unfold sendToClient.
  destruct (net_ResolveUDPAddr (Address client)); [|reflexivity].
  unfold WriteToUDP. destruct (net_WriteToUDP_ok _ _); reflexivity.
Qed.

(** ** Further properties of the protocol package *)

(** X1.  The version byte round-trips: for a minor version in 0..31 and a
    patch in 0..7, [parseVersion] recovers both from the byte that
    [encodeVersion] builds, and reports major 1 whatever major was given. *)
Theorem parseVersion_encodeVersion (major minor patch : Z) :
  0 <= minor <= 31 -> 0 <= patch <= 7 ->
  parseVersion (encodeVersion major minor patch) = (1, minor, patch).
Proof.
  intros Hm Hp.
  assert (Hall :
    bool_decide
      (Forall (fun m => Forall (fun p =>
         parseVersion (encodeVersion major m p) = (1, m, p)) (seqZ 0 8))
         (seqZ 0 32)) = true) by (vm_compute; reflexivity).
  apply bool_decide_eq_true in Hall.
  rewrite Forall_seqZ in Hall. specialize (Hall minor ltac:(lia)).
  rewrite Forall_seqZ in Hall. apply Hall. lia.
Qed.

Lemma parseVersion_encodeVersion_witness :
  parseVersion (encodeVersion 1 2 3) = (1, 2, 3).
Proof. apply parseVersion_encodeVersion; lia. Defined.

Lemma ValidatePacket_accepts (g : VersionVars) (p : Packet) :
  VersionVars_reachable g ->
  Magic p = MagicBytes ->
  1 <= byte_to_Z (Type_ p) <= 4 ->
  Length p = uint16 (len (Payload p)) ->
  ValidatePacket g p = None.
Proof.
  intros Hg Hm Ht Hl. apply reachable_major in Hg.
  unfold ValidatePacket, run_validators, ValidateMagic, ValidateVersion,
    ValidateType, ValidateLength, PacketTypeData, PacketTypePong.
  cbn [parseVersion]. rewrite Hg, Hm.
  destruct (decide (MagicBytes = MagicBytes)); [|congruence].
  change (negb (1 =? 1)) with false. cbn iota.
  destruct (Z.ltb_spec (byte_to_Z (Type_ p)) 1); [lia|].
  destruct (Z.gtb_spec (byte_to_Z (Type_ p)) 4); [lia|]. cbn [orb].
  rewrite <- Hl, Z.eqb_refl. reflexivity.
Qed.

Lemma DecodePacket_EncodePacket (g : VersionVars) (p : Packet) :
  VersionVars_reachable g ->
  Packet_typed p ->
  Magic p = MagicBytes ->
  1 <= byte_to_Z (Type_ p) <= 4 ->
  Length p = uint16 (len (Payload p)) ->
  DecodePacket g (EncodePacket p) = inl p.
Proof.
  intros Hg Hty Hm Ht Hl. unfold DecodePacket.
  rewrite ParsePacket_EncodePacket by exact Hty.
  now rewrite ValidatePacket_accepts.
Qed.

Lemma uint16_range (n : Z) : is_uint16 (uint16 n).
Proof. unfold is_uint16, uint16. apply Z.mod_pos_bound. lia. Qed.

Lemma uint32_range (n : Z) : is_uint32 (uint32 n).
Proof. unfold is_uint32, uint32. apply Z.mod_pos_bound. lia. Qed.

(** X2.  What the packet constructors build is accepted by the decoder:
    for a 32-bit sequence and any payload, encoding an Auth, Data or Ping
    packet made by [CreateAuthPacket], [CreateDataPacket] or
    [CreatePingPacket] and decoding the bytes gives the packet back,
    whatever version the program was initialised with. *)
Theorem constructed_packets_decode (g : VersionVars) (clientID : byte)
    (sequence : Z) (payload : list byte) :
  VersionVars_reachable g -> is_uint32 sequence ->
  DecodePacket g (EncodePacket (CreateAuthPacket g clientID sequence payload))
    = inl (CreateAuthPacket g clientID sequence payload)
  /\ DecodePacket g
       (EncodePacket (CreateDataPacket g clientID sequence payload))
     = inl (CreateDataPacket g clientID sequence payload)
  /\ DecodePacket g (EncodePacket (CreatePingPacket g clientID sequence))
     = inl (CreatePingPacket g clientID sequence).
Proof.
  intros Hg Hs.
  split; [|split]; apply DecodePacket_EncodePacket; try exact Hg;
    try reflexivity;
    try (split; [exact Hs|first [apply uint16_range | unfold is_uint16; cbn; lia]]).
  all: try (vm_compute; split; discriminate).
  all: idtac.
Qed.

Lemma constructed_packets_decode_witness :
  DecodePacket VersionVars_init
    (EncodePacket (CreatePingPacket VersionVars_init x07 9))
  = inl (CreatePingPacket VersionVars_init x07 9).
Proof.
  apply (constructed_packets_decode VersionVars_init x07 9 []).
  - apply reach_init.
  - unfold is_uint32. lia.
Defined.

(** X3.  [ParsePacket] fails exactly on inputs shorter than the 12-byte
    header, [DecodePacket] then fails with the same error, and on success
    the payload is everything after the header: 12 bytes fewer than the
    input, whatever the [Length] field says. *)
Theorem ParsePacket_header_bound (g : VersionVars) (data : list byte) :
  (len data < 12 <-> ParsePacket data = inr ErrPacketTooShort)
  /\ (len data < 12 <-> DecodePacket g data = inr ErrPacketTooShort)
  /\ (forall p, ParsePacket data = inl p ->
        Payload p = drop 12 data /\ len (Payload p) = len data - 12).
Proof.
  unfold DecodePacket, ParsePacket, len.
  do 12 (destruct data as [|? data];
         [cbn; repeat split; intros; first [lia | discriminate | reflexivity]|]).
  cbn [length drop]. cbv beta iota.
  split; [split; [lia|intros; discriminate]|]. split.
  - split; [lia|].
    destruct (ValidatePacket _ _) as [e|] eqn:Hv; [|intros; discriminate].
    intros [= ->]. revert Hv.
    unfold ValidatePacket, run_validators, ValidateMagic, ValidateVersion,
      ValidateType, ValidateLength.
    cbn [parseVersion].
    repeat first
      [ progress cbv beta iota
      | match goal with
        | |- context [if ?c then _ else _] => destruct c
        end ];
      intros; discriminate.
  - intros p [= <-]. cbn [Payload]. split; [reflexivity|lia].
Qed.

(** ** Further properties of the crypto package *)

(** X5.  The nonce is 12 bytes: the sequence as four little-endian bytes
    followed by eight zero bytes; two 32-bit sequences with the same nonce
    are the same sequence. *)
Theorem GenerateNonce_injective (s1 s2 : Z) :
  is_uint32 s1 -> is_uint32 s2 ->
  length (GenerateNonce s1) = 12%nat
  /\ GenerateNonce s1 = PutUint32 s1 ++ repeat x00 8
  /\ (GenerateNonce s1 = GenerateNonce s2 -> s1 = s2).
Proof.
  intros H1 H2. split; [reflexivity|]. split; [reflexivity|].
  intros Heq. unfold GenerateNonce in Heq.
  injection Heq as E0 E1 E2 E3.
  rewrite <- (Uint32_PutUint32 s1 H1), <- (Uint32_PutUint32 s2 H2).
  now rewrite E0, E1, E2, E3.
Qed.

Lemma GenerateNonce_injective_witness :
  length (GenerateNonce 7) = 12%nat.
Proof.
  refine (proj1 (GenerateNonce_injective 7 8 _ _)); unfold is_uint32; lia.
Defined.

Lemma hex_Decode_Encode_byte (b : byte) (rest : list byte) :
  hex_Decode (hex.Encode [b] ++ rest) =
    match hex_Decode rest with
    | inl out => inl (b :: out)
    | inr e => inr e
    end.
Proof. destruct b; reflexivity. Qed.

Lemma hex_Decode_Encode (src : list byte) :
  hex_Decode (hex.Encode src) = inl src.
Proof.
  induction src as [|b src IH]; [reflexivity|].
  change (hex.Encode (b :: src)) with (hex.Encode [b] ++ hex.Encode src).
  now rewrite hex_Decode_Encode_byte, IH.
Qed.

Lemma Sprintf_x_byte (b : byte) (rest : string) :
  String (hexdigit (byte_to_Z b / 16))
    (String (hexdigit (byte_to_Z b mod 16)) rest)
  = string_of_list_byte (hex.Encode [b]) +:+ rest.
Proof. destruct b; reflexivity. Qed.

Lemma string_of_list_byte_app (l1 l2 : list byte) :
  string_of_list_byte (l1 ++ l2)
  = string_of_list_byte l1 +:+ string_of_list_byte l2.
Proof.
  unfold string_of_list_byte.
  induction l1 as [|b l1 IH]; [reflexivity|].
  cbn [app map string_of_list_ascii]. rewrite IH. reflexivity.
Qed.

Lemma Sprintf_x_EncodeToString (key : list byte) :
  Sprintf_x key = hex.EncodeToString key.
Proof.
  unfold hex.EncodeToString. induction key as [|b key IH]; [reflexivity|].
  cbn [Sprintf_x]. rewrite Sprintf_x_byte, IH. symmetry.
  exact (string_of_list_byte_app (hex.Encode [b]) (hex.Encode key)).
Qed.

(** X6.  Hex encoding and decoding are inverse on keys: decoding the hex
    string that [hex.EncodeToString] produces gives the bytes back, the
    [%x] fingerprint that indexes the peer table is that same string, and
    so two keys with the same fingerprint are the same key. *)
Theorem hex_round_trip :
  (forall key, hex_DecodeString (hex.EncodeToString key) = inl key)
  /\ (forall key, Sprintf_x key = hex.EncodeToString key)
  /\ (forall k1 k2, Sprintf_x k1 = Sprintf_x k2 -> k1 = k2).
Proof.
  assert (Hrt : forall key, hex_DecodeString (hex.EncodeToString key) = inl key).
  { intros key. unfold hex_DecodeString, hex.EncodeToString.
    rewrite list_byte_of_string_of_list_byte. apply hex_Decode_Encode. }
  split; [exact Hrt|]. split; [exact Sprintf_x_EncodeToString|].
  intros k1 k2 Heq. rewrite !Sprintf_x_EncodeToString in Heq.
  pose proof (Hrt k1) as H1. rewrite Heq, Hrt in H1. congruence.
Qed.

Lemma hex_Decode_length (src out : list byte) :
  hex_Decode src = inl out -> length src = (2 * length out)%nat.
Proof.
  remember (length src) as n eqn:Hn. revert src out Hn.
  induction n as [n IH] using lt_wf_ind. intros src out Hn H.
  destruct src as [|p [|q rest]].
  - injection H as <-. subst n. reflexivity.
  - cbn in H. destruct (fromHexChar p); discriminate.
  - cbn [hex_Decode] in H.
    destruct (fromHexChar p); [|discriminate].
    destruct (fromHexChar q); [|discriminate].
    destruct (hex_Decode rest) as [out'|] eqn:Hr; [|discriminate].
    injection H as <-. cbn [length] in *.
    pose proof (IH (length rest) ltac:(lia) rest out' eq_refl Hr). lia.
Qed.

(** X7.  A key string that the loader accepts has exactly 64 characters:
    whenever [hex_DecodeString] succeeds the input has two characters per
    decoded byte, so a string of odd length is always rejected. *)
Theorem loadable_key_length (c : ClientConfig) :
  loadable c -> String.length (cfg_Key c) = 64%nat.
Proof.
  intros (key & Hdec & Hlen). unfold hex_DecodeString in Hdec.
  apply hex_Decode_length in Hdec.
  assert (Hs : forall s, length (list_byte_of_string s) = String.length s).
  { unfold list_byte_of_string. induction s as [|a s IHs]; [reflexivity|].
    cbn [list_ascii_of_string map length String.length]. now rewrite IHs. }
  rewrite Hs in Hdec. unfold len in Hlen. lia.
Qed.

Lemma loadable_key_length_witness :
  String.length hex_key_a = 64%nat.
Proof.
  apply (loadable_key_length {| cfg_ID := x01; cfg_Key := hex_key_a |}).
  eexists. split; [vm_compute; reflexivity|reflexivity].
Defined.

Lemma load_clients_prefix (cs : list ClientConfig) :
  forall ks : gmap byte (list byte),
    (load_clients cs ks).2 = (load_clients (loaded_prefix cs) ks).2
    /\ (load_clients (loaded_prefix cs) ks).1 = None.
Proof.
  induction cs as [|c cs IH]; intros ks; cbn [load_clients loaded_prefix].
  - auto.
  - destruct (hex_DecodeString (cfg_Key c)) as [key|e] eqn:Hhex; [|auto].
    destruct (Z.eqb_spec (len key) 32) as [Hlen|Hlen]; cbn [negb]; [|auto].
    cbn [load_clients]. rewrite Hhex.
    destruct (Z.eqb_spec (len key) 32); [|contradiction]. cbn [negb].
    apply IH.
Qed.

Lemma load_clients_32 (cs : list ClientConfig) :
  forall ks : gmap byte (list byte),
    (forall id key, ks !! id = Some key -> len key = 32) ->
    forall id key, (load_clients cs ks).2 !! id = Some key -> len key = 32.
Proof.
  induction cs as [|c cs IH]; intros ks Hks; cbn [load_clients]; [exact Hks|].
  destruct (hex_DecodeString (cfg_Key c)) as [key|e] eqn:Hhex; [|exact Hks].
  destruct (Z.eqb_spec (len key) 32) as [Hlen|Hlen]; cbn [negb]; [|exact Hks].
  apply IH. intros id k Hl.
  apply lookup_insert_Some in Hl as [[_ <-]|[_ Hl]]; eauto.
Qed.

(** X8.  Whatever [LoadKeysFromConfig] returns, every key the registry
    holds afterwards is 32 bytes long, provided the registry held only
    32-byte keys before (a new registry holds none). *)
Theorem LoadKeysFromConfig_keys_32 `{ConfigIO} (configPath : string)
    (km : KeyManager) :
  (forall id key, keys km !! id = Some key -> len key = 32) ->
  forall id key,
    keys (LoadKeysFromConfig configPath km).2 !! id = Some key ->
    len key = 32.
Proof.
  intros Hkm id key. unfold LoadKeysFromConfig.
  destruct (os_ReadFile configPath) as [data|]; [|apply Hkm].
  destruct (yaml_Unmarshal data) as [config|]; [|apply Hkm].
  pose proof (load_clients_32 (Clients config) ∅) as H32.
  destruct (load_clients (Clients config) ∅) as [err ks]. cbn [snd keys] in *.
  apply H32. intros id' k Hl. rewrite lookup_empty in Hl. discriminate.
Qed.

Lemma LoadKeysFromConfig_keys_32_witness :
  len (default []
         (keys (LoadKeysFromConfig (H := fixed_config duplicate_id_config)
                  "server.yaml" NewKeyManager).2 !! x01)) = 32.
Proof.
  apply (LoadKeysFromConfig_keys_32 (H := fixed_config duplicate_id_config)
           "server.yaml" NewKeyManager) with (id := x01).
  - intros id key Hl. cbn in Hl. rewrite lookup_empty in Hl. discriminate.
  - vm_compute. reflexivity.
Defined.

(** X9.  How a load fails.  If the file cannot be read or parsed the
    registry is left as it was.  Otherwise the old content is discarded
    and, error or not, the registry ends up holding exactly the entries
    that precede the first one whose key is not hex or not 32 bytes: each
    id is mapped to the key of the last such entry carrying it. *)
Theorem LoadKeysFromConfig_partial `{ConfigIO} (configPath : string)
    (km : KeyManager) :
  let r := LoadKeysFromConfig configPath km in
  match os_ReadFile configPath with
  | None => r = (Some ErrReadConfig, km)
  | Some data =>
      match yaml_Unmarshal data with
      | None => r = (Some ErrParseConfig, km)
      | Some config =>
          forall id,
            keys r.2 !! id = last_key id (loaded_prefix (Clients config))
      end
  end.
Proof.
  unfold LoadKeysFromConfig.
  destruct (os_ReadFile configPath) as [data|]; [|reflexivity].
  destruct (yaml_Unmarshal data) as [config|]; [|reflexivity].
  intros id.
  destruct (load_clients_prefix (Clients config) ∅) as [Hsame Hok].
  destruct (load_clients_spec (loaded_prefix (Clients config)) ∅)
    as [_ Hkeys].
  destruct (load_clients (Clients config) ∅) as [err ks].
  cbn [fst snd keys] in *. rewrite Hsame, (Hkeys Hok id).
  destruct (last_key id _); [reflexivity|apply lookup_empty].
Qed.
(** ** Further properties of the peer table *)

(** X10.  A successful [AddClient] can be read back: the returned client
    is what [GetClient] finds under its id and what [GetClientByIP] finds
    under its inner IP; it holds the key and address given, is connected,
    was last seen now and has accepted no sequence yet; and every entry
    that was live before is still there, unchanged. *)
Theorem AddClient_lookup (cm cm' : ClientManager) (key : list byte)
    (address : string) (now : Z) (c : Client) :
  AddClient key address now cm = (inl c, cm') ->
  GetClient cm' (ID c) = inl c
  /\ GetClientByIP cm' (IP c) = inl c
  /\ Key c = key /\ Address c = address /\ Connected c = true
  /\ LastSeen c = now /\ LastSeq c = 0
  /\ (forall id c0, clients cm !! id = Some c0 ->
        clients cm' !! id = Some c0).
Proof.
  intros Hadd.
  destruct (AddClient_cases key address now cm)
    as [[e He]|(c0 & He & Hceq & _ & Hkey & Hid & Hip)]; [congruence|].
  rewrite He in Hadd. injection Hadd as -> <-.
  destruct (AddClient_fresh cm Hid Hip) as [Hfid Hfip].
  unfold GetClient, GetClientByIP. cbn [clients ipToClient].
  rewrite !lookup_insert_eq. cbv beta iota. rewrite ?lookup_insert_eq.
  repeat split; try (subst c; reflexivity).
  intros id c1 Hl. rewrite lookup_insert_ne; [exact Hl|].
  intros Heq. subst c. cbn [ID] in Heq. congruence.
Qed.

Lemma AddClient_lookup_witness :
  GetClient (clientManager example_server) x01 = inl example_client.
Proof.
  refine (proj1 (AddClient_lookup
                   (NewClientManager {| keys := {[ x01 := example_key ]} |})
                   (clientManager example_server) example_key
                   "203.0.113.9:5000" 0 example_client _)).
  vm_compute. reflexivity.
Defined.

(** X11.  Evicting a peer that was just admitted restores the table: after
    a successful [AddClient], [RemoveClient] of the new id succeeds and
    the client map and both indices are what they were before the
    admission, so the id and the inner IP are free again. *)
Theorem AddClient_RemoveClient (cm cm' : ClientManager) (key : list byte)
    (address : string) (now : Z) (c : Client) :
  AddClient key address now cm = (inl c, cm') ->
  RemoveClient (ID c) cm' = (None, cm).
Proof.
  intros Hadd.
  destruct (AddClient_cases key address now cm)
    as [[e He]|(c0 & He & Hceq & _ & Hkey & Hid & Hip)]; [congruence|].
  rewrite He in Hadd. injection Hadd as -> <-.
  destruct (AddClient_fresh cm Hid Hip) as [Hfid Hfip].
  assert (HID : ID c = findNextClientID cm) by (subst c; reflexivity).
  assert (HIP : IP c = assignNextIP cm) by (subst c; reflexivity).
  assert (HKey : Key c = key) by (subst c; reflexivity).
  unfold RemoveClient. cbn [clients]. rewrite lookup_insert_eq.
  unfold delete_entries. cbn [clients ipToClient keyToClient timeout keyManager].
  rewrite HKey, !delete_insert_eq.
  rewrite !delete_id by (rewrite ?HID, ?HIP; assumption).
  now destruct cm.
Qed.

Lemma AddClient_RemoveClient_witness :
  RemoveClient x01 (clientManager example_server)
  = (None, NewClientManager {| keys := {[ x01 := example_key ]} |}).
Proof.
  apply (AddClient_RemoveClient _ _ example_key "203.0.113.9:5000" 0
           example_client).
  vm_compute. reflexivity.
Defined.

(** X12.  [RemoveClient] of an id that is not live fails with
    [ErrClientNotFound] and changes nothing.  On a table with consistent
    indices, removing a live client succeeds, after which neither
    [GetClient] with its id nor [GetClientByIP] with its inner IP finds a
    client, while every other live client is still found under its id and
    under its IP. *)
Theorem RemoveClient_spec (cm : ClientManager) (id : byte) :
  indices_consistent cm ->
  match clients cm !! id with
  | None => RemoveClient id cm = (Some ErrClientNotFound, cm)
  | Some c =>
      (RemoveClient id cm).1 = None
      /\ GetClient (RemoveClient id cm).2 id = inr ErrClientNotFound
      /\ GetClientByIP (RemoveClient id cm).2 (IP c) = inr ErrClientNotFound
      /\ (forall id' c', id' <> id -> clients cm !! id' = Some c' ->
            GetClient (RemoveClient id cm).2 id' = inl c'
            /\ GetClientByIP (RemoveClient id cm).2 (IP c') = inl c')
  end.
Proof.
  intros Hcons. unfold RemoveClient.
  destruct (clients cm !! id) as [c|] eqn:Hl; [|reflexivity].
  pose proof (delete_entries_consistent cm id c Hl Hcons) as Hcons'.
  destruct Hcons as (Hc & Hi & Hk). cbn [fst snd].
  unfold GetClient, GetClientByIP, delete_entries.
  cbn [clients ipToClient]. rewrite !lookup_delete_eq.
  repeat (split; [reflexivity|]).
  intros id' c' Hne Hl'. destruct (Hc _ _ Hl') as (Hid' & Hip' & _).
  destruct (Hc _ _ Hl) as (Hid & Hip & _).
  assert (E1 : delete id (clients cm) !! id' = Some c')
    by (rewrite lookup_delete_ne; [exact Hl'|intros Heq; now apply Hne]).
  assert (E2 : delete (IP c) (ipToClient cm) !! IP c' = Some id').
  { rewrite lookup_delete_ne; [rewrite <- Hid'; exact Hip'|].
    intros Heq. rewrite Heq, Hip' in Hip. congruence. }
  rewrite E2, E1. auto.
Qed.

Lemma RemoveClient_spec_witness :
  (RemoveClient x01 (clientManager authenticated_server)).1 = None.
Proof.
  pose proof (RemoveClient_spec (clientManager authenticated_server) x01) as H.
  change (clients (clientManager authenticated_server) !! x01)
    with (Some example_client) in H.
  apply H.
  apply (AddClient_consistent example_key "203.0.113.9:5000" 0
           (NewClientManager {| keys := {[ x01 := example_key ]} |})).
  apply NewClientManager_consistent.
Defined.

Lemma remove_timed_out_clients (cm : ClientManager) (id : byte) :
  clients (remove_timed_out cm id) = delete id (clients cm)
  /\ timeout (remove_timed_out cm id) = timeout cm.
Proof.
  unfold remove_timed_out. destruct (clients cm !! id) eqn:Hl.
  - split; reflexivity.
  - split; [|reflexivity]. symmetry. now apply delete_id.
Qed.

Lemma fold_remove_timed_out (ids : list byte) :
  forall (cm : ClientManager) (id : byte),
    clients (fold_left remove_timed_out ids cm) !! id =
      (if decide (id ∈ ids) then None else clients cm !! id)
    /\ timeout (fold_left remove_timed_out ids cm) = timeout cm.
Proof.
  induction ids as [|i ids IH]; intros cm id; cbn [fold_left].
  - split; [|reflexivity]. destruct (decide (id ∈ [])) as [Hin|_];
      [now apply elem_of_nil in Hin|reflexivity].
  - destruct (IH (remove_timed_out cm i) id) as [IHc IHt].
    destruct (remove_timed_out_clients cm i) as [Hc Ht].
    split; [|congruence]. rewrite IHc, Hc.
    destruct (decide (id ∈ ids)) as [Hin|Hnin].
    + rewrite decide_True by (now apply list_elem_of_further). reflexivity.
    + destruct (decide (id = i)) as [->|Hne].
      * rewrite decide_True by apply list_elem_of_here.
        apply lookup_delete_eq.
      * rewrite decide_False.
        -- now apply lookup_delete_ne.
        -- intros Hin. apply elem_of_cons in Hin as [?|?]; contradiction.
Qed.

Lemma elem_of_timed_out (now : Z) (cm : ClientManager) (id : byte) :
  id ∈ timed_out now cm <->
  exists c, clients cm !! id = Some c /\ now - LastSeen c > timeout cm.
Proof.
  unfold timed_out. rewrite list_elem_of_fmap. split.
  - intros ([i c] & -> & Hin). apply list_elem_of_In, filter_In in Hin.
    destruct Hin as [Hin Hf]. apply list_elem_of_In, elem_of_map_to_list in Hin.
    exists c. split; [exact Hin|]. cbn [snd] in Hf.
    destruct (Z.gtb_spec (now - LastSeen c) (timeout cm)); [lia|discriminate].
  - intros (c & Hl & Hgt). exists (id, c). split; [reflexivity|].
    apply list_elem_of_In, filter_In. split.
    + now apply list_elem_of_In, elem_of_map_to_list.
    + cbn [snd]. destruct (Z.gtb_spec (now - LastSeen c) (timeout cm));
        [reflexivity|lia].
Qed.

(** X13.  One tick of the reaper.  After [CheckTimeouts] at time [now] a
    peer is live exactly when it was live before and was last seen no more
    than the timeout ago: a peer with [now - LastSeen > timeout] is gone, a
    peer seen since is kept with its entry unchanged (also when the timeout
    has elapsed to the nanosecond), no peer appears, the timeout itself is
    untouched, and a second tick at the same time removes nothing more. *)
Theorem CheckTimeouts_spec (now : Z) (cm : ClientManager) (id : byte) :
  clients (CheckTimeouts now cm) !! id =
    match clients cm !! id with
    | Some c => if now - LastSeen c >? timeout cm then None else Some c
    | None => None
    end
  /\ timeout (CheckTimeouts now cm) = timeout cm
  /\ clients (CheckTimeouts now (CheckTimeouts now cm))
     = clients (CheckTimeouts now cm).
Proof.
  assert (Hone : forall cm0 i,
    clients (CheckTimeouts now cm0) !! i =
      match clients cm0 !! i with
      | Some c => if now - LastSeen c >? timeout cm0 then None else Some c
      | None => None
      end).
  { intros cm0 i. unfold CheckTimeouts.
    rewrite (proj1 (fold_remove_timed_out (timed_out now cm0) cm0 i)).
    destruct (decide (i ∈ timed_out now cm0)) as [Hin|Hnin].
    - apply elem_of_timed_out in Hin as (c & -> & Hgt).
      destruct (Z.gtb_spec (now - LastSeen c) (timeout cm0));
        [reflexivity|lia].
    - destruct (clients cm0 !! i) as [c|] eqn:Hl; [|reflexivity].
      destruct (Z.gtb_spec (now - LastSeen c) (timeout cm0)); [|reflexivity].
      destruct Hnin. apply elem_of_timed_out. exists c. split; [auto|lia]. }
  assert (Ht : forall cm0, timeout (CheckTimeouts now cm0) = timeout cm0).
  { intros cm0. unfold CheckTimeouts.
    exact (proj2 (fold_remove_timed_out (timed_out now cm0) cm0 x00)). }
  split; [apply Hone|]. split; [apply Ht|].
  apply map_eq. intros i. rewrite (Hone (CheckTimeouts now cm)), Ht, Hone.
  destruct (clients cm !! i) as [c|]; [|reflexivity].
  destruct (now - LastSeen c >? timeout cm) eqn:E; [reflexivity|].
  now rewrite E.
Qed.

(** X14.  An operation of the peer table that returns an error has changed
    nothing: after a failed [AddClient], [RemoveClient] or
    [UpdateClientActivity] the client map, both indices and the settings
    are what they were. *)
Theorem failed_operation_changes_nothing (cm : ClientManager) :
  (forall key address now e,
      (AddClient key address now cm).1 = inr e ->
      (AddClient key address now cm).2 = cm)
  /\ (forall id e,
        (RemoveClient id cm).1 = Some e -> (RemoveClient id cm).2 = cm)
  /\ (forall id s now e,
        (UpdateClientActivity id s now cm).1 = Some e ->
        (UpdateClientActivity id s now cm).2 = cm).
Proof.
  split; [|split].
  - intros key address now e.
    destruct (AddClient_cases key address now cm) as [[e' ->]|(c & -> & _)];
      [reflexivity|discriminate].
  - intros id e. unfold RemoveClient.
    destruct (clients cm !! id); [discriminate|reflexivity].
  - intros id s now e. unfold UpdateClientActivity.
    destruct (clients cm !! id) as [c|]; [|reflexivity].
    destruct (s <=? LastSeq c); [reflexivity|discriminate].
Qed.

Lemma GetClientByIP_iff (cm : ClientManager) (ip : string) (c : Client) :
  indices_consistent cm ->
  (GetClientByIP cm ip = inl c
   <-> clients cm !! ID c = Some c /\ IP c = ip).
Proof.
  intros (Hc & Hi & _). unfold GetClientByIP. split.
  - destruct (ipToClient cm !! ip) as [id|] eqn:Hl; [|discriminate].
    destruct (Hi _ _ Hl) as (c' & Hl' & Hip). rewrite Hl'.
    intros [= <-]. destruct (Hc _ _ Hl') as (-> & _). auto.
  - intros [Hl <-]. destruct (Hc _ _ Hl) as (_ & -> & _). now rewrite Hl.
Qed.

Lemma GetClientByIP_unused (cm : ClientManager) (ip : string) :
  indices_consistent cm ->
  ~ ip_in_use cm ip -> GetClientByIP cm ip = inr ErrClientNotFound.
Proof.
  intros Hcons Hno. rewrite (ip_in_use_index cm ip Hcons) in Hno.
  unfold GetClientByIP.
  destruct (ipToClient cm !! ip); [|reflexivity]. destruct Hno. eauto.
Qed.

(** X15.  On a table with consistent indices [GetClientByIP] finds exactly
    the live client that has the inner IP asked for: it returns [c] if and
    only if [c] is the live entry under its own id and [IP c] is that
    address; for an address no live client has, it fails with
    [ErrClientNotFound]. *)
Theorem GetClientByIP_spec (cm : ClientManager) (ip : string) (c : Client) :
  indices_consistent cm ->
  (GetClientByIP cm ip = inl c
   <-> clients cm !! ID c = Some c /\ IP c = ip)
  /\ (~ ip_in_use cm ip -> GetClientByIP cm ip = inr ErrClientNotFound).
Proof.
  intros Hcons. split.
  - now apply GetClientByIP_iff.
  - now apply GetClientByIP_unused.
Qed.

Lemma GetClientByIP_spec_witness :
  GetClientByIP (clientManager example_server) "10.0.0.2" = inl example_client
  <-> clients (clientManager example_server) !! ID example_client
        = Some example_client
      /\ IP example_client = "10.0.0.2"%string.
Proof.
  apply (GetClientByIP_spec (clientManager example_server) "10.0.0.2"
           example_client).
  apply (AddClient_consistent example_key "203.0.113.9:5000" 0
           (NewClientManager {| keys := {[ x01 := example_key ]} |})).
  apply NewClientManager_consistent.
Defined.

Lemma nodot_pretty_byte (b : byte) : nodot (pretty (byte_to_Z b)) = true.
Proof. destruct b; reflexivity. Qed.

Lemma split_at_dot (s t r1 r2 : string) :
  nodot s = true -> nodot t = true ->
  s +:+ String "." r1 = t +:+ String "." r2 -> s = t /\ r1 = r2.
Proof.
  revert t. induction s as [|a s IH]; intros [|b t] Hs Ht Heq;
    cbn [nodot] in *; unfold String.app in *; cbn [append] in *.
  - injection Heq as ->. auto.
  - injection Heq as <- _. cbn in Ht. discriminate.
  - injection Heq as -> _. cbn in Hs. discriminate.
  - injection Heq as -> Heq.
    apply andb_true_iff in Hs as [_ Hs]. apply andb_true_iff in Ht as [_ Ht].
    destruct (IH t Hs Ht Heq) as [-> ->]. auto.
Qed.

Lemma Sprintf_dotted_server (d0 d1 d2 d3 : byte) :
  Sprintf_dotted d0 d1 d2 d3 = "10.0.0.1"%string
  <-> (d0, d1, d2, d3) = (x0a, x00, x00, x01).
Proof.
  split; [|intros [= -> -> -> ->]; reflexivity].
  unfold Sprintf_dotted. intros Heq.
  assert (Hp : forall (b : byte) (n : Z) (s : string),
             pretty n = s -> pretty (byte_to_Z b) = s -> byte_to_Z b = n).
  { intros b n s <- Hb. now apply pretty_Z_inj in Hb. }
  change "10.0.0.1"%string
    with ("10" +:+ String "." ("0" +:+ String "." ("0" +:+ String "." "1")))
    in Heq.
  change (?a +:+ "." +:+ ?r) with (a +:+ String "." r) in Heq.
  apply split_at_dot in Heq as [E0 Heq];
    [|apply nodot_pretty_byte|reflexivity].
  change (?a +:+ "." +:+ ?r) with (a +:+ String "." r) in Heq.
  apply split_at_dot in Heq as [E1 Heq];
    [|apply nodot_pretty_byte|reflexivity].
  change (?a +:+ "." +:+ ?r) with (a +:+ String "." r) in Heq.
  apply split_at_dot in Heq as [E2 E3];
    [|apply nodot_pretty_byte|reflexivity].
  apply (Hp d0 10) in E0; [|reflexivity].
  apply (Hp d1 0) in E1; [|reflexivity].
  apply (Hp d2 0) in E2; [|reflexivity].
  apply (Hp d3 1) in E3; [|reflexivity].
  f_equal; [f_equal; [f_equal|]|]; apply byte_to_Z_inj; assumption.
Qed.

(** X16.  Routing of a datagram read from the TUN device.  A datagram of
    fewer than 20 bytes is refused.  Otherwise, on a table with consistent
    indices: if bytes 16..19 (the destination) are 10.0.0.1 the target is
    the dotted form of the source address in bytes 12..15, else that of the
    destination; the datagram is routed to the live client whose inner IP
    is the target, and refused when no live client has it. *)
Theorem determineClient_routes (cm : ClientManager) (hdr : list byte)
    (s0 s1 s2 s3 d0 d1 d2 d3 : byte) (rest : list byte) :
  indices_consistent cm ->
  length hdr = 12%nat ->
  let datagram := hdr ++ [s0; s1; s2; s3; d0; d1; d2; d3] ++ rest in
  let target :=
    if decide ((d0, d1, d2, d3) = (x0a, x00, x00, x01))
    then Sprintf_dotted s0 s1 s2 s3 else Sprintf_dotted d0 d1 d2 d3 in
  (forall c, clients cm !! ID c = Some c -> IP c = target ->
     determineClient cm datagram = inl (ID c))
  /\ (~ ip_in_use cm target ->
      determineClient cm datagram = inr ErrNoClientForIP)
  /\ (forall short, (length short < 20)%nat ->
        determineClient cm short = inr ErrIPHeaderTooShort).
Proof.
  intros Hcons Hhdr datagram target.
  assert (Hdet : determineClient cm datagram =
                 match GetClientByIP cm target with
                 | inr _ => inr ErrNoClientForIP
                 | inl client => inl (ID client)
                 end).
  { subst datagram target. unfold determineClient.
    rewrite drop_app_length' by (symmetry; exact Hhdr). cbn [app].
    destruct (decide ((d0, d1, d2, d3) = (x0a, x00, x00, x01))) as [E|E].
    - rewrite decide_True by (now apply Sprintf_dotted_server). reflexivity.
    - rewrite decide_False; [reflexivity|].
      intros Heq. now apply E, Sprintf_dotted_server. }
  split; [|split].
  - intros c Hl Hip. rewrite Hdet.
    now rewrite (proj2 (GetClientByIP_iff cm target c Hcons) (conj Hl Hip)).
  - intros Hno. rewrite Hdet. now rewrite GetClientByIP_unused.
  - intros short Hlen. unfold determineClient.
    do 20 (destruct short as [|? short]; [reflexivity|]).
    cbn [length] in Hlen. lia.
Qed.

Lemma determineClient_routes_witness :
  determineClient (clientManager example_server) (example_datagram [x01])
  = inl x01.
Proof.
  refine (proj1 (determineClient_routes (clientManager example_server)
                   ([x45; x00; x00; x15] ++ repeat x00 8)
                   x08 x08 x08 x08 x0a x00 x00 x02 [x01] _ _)
            example_client _ _).
  - apply (AddClient_consistent example_key "203.0.113.9:5000" 0
             (NewClientManager {| keys := {[ x01 := example_key ]} |})).
    apply NewClientManager_consistent.
  - reflexivity.
  - vm_compute. reflexivity.
  - vm_compute. reflexivity.
Defined.

(** Where an entry found after one operation comes from. *)
Lemma apply_op_lookup (cm : ClientManager) (o : op) (id : byte) (c' : Client) :
  clients (apply_op cm o) !! id = Some c' ->
  (exists c, clients cm !! id = Some c
             /\ ID c' = ID c /\ IP c' = IP c /\ Key c' = Key c
             /\ Address c' = Address c /\ Connected c' = Connected c
             /\ LastSeq c <= LastSeq c')
  \/ (clients cm !! id = None /\ Connected c' = true /\ LastSeq c' = 0).
Proof.
  assert (Hsame : forall c, clients cm !! id = Some c ->
            exists c0, clients cm !! id = Some c0
                       /\ ID c = ID c0 /\ IP c = IP c0 /\ Key c = Key c0
                       /\ Address c = Address c0
                       /\ Connected c = Connected c0
                       /\ LastSeq c0 <= LastSeq c).
  { intros c Hl. exists c. repeat split; auto. lia. }
  destruct o as [key address now|clientID|clientID s now|now];
    cbn [apply_op]; intros Hl.
  - destruct (AddClient_cases key address now cm)
      as [[e He]|(c0 & He & Hceq & _ & _ & Hid & Hip)];
      rewrite He in Hl; cbn [snd clients] in Hl; [left; auto|].
    destruct (AddClient_fresh cm Hid Hip) as [Hfid _].
    apply lookup_insert_Some in Hl as [[<- <-]|[_ Hl]]; [|left; auto].
    right. subst c0. cbn [ID] in *. auto.
  - left. unfold RemoveClient in Hl.
    destruct (clients cm !! clientID) as [c0|]; cbn [snd] in Hl; [|auto].
    unfold delete_entries in Hl. cbn [clients] in Hl.
    apply lookup_delete_Some in Hl as [_ Hl]. auto.
  - left. unfold UpdateClientActivity in Hl.
    destruct (clients cm !! clientID) as [c0|] eqn:Hc0; [|auto].
    destruct (Z.leb_spec s (LastSeq c0)); cbn [snd clients] in Hl; [auto|].
    apply lookup_insert_Some in Hl as [[<- <-]|[_ Hl]]; [|auto].
    exists c0. cbn. repeat split; auto. lia.
  - left. unfold CheckTimeouts in Hl.
    rewrite (proj1 (fold_remove_timed_out (timed_out now cm) cm id)) in Hl.
    destruct (decide (id ∈ timed_out now cm)); [discriminate|auto].
Qed.

(** X17.  An entry that is live before and after an operation of the peer
    table (an admission, an eviction, an activity update or a reaper tick)
    keeps its id, inner IP, key, address and connected flag, and its last
    accepted sequence does not decrease. *)
Theorem surviving_entry_keeps_identity (cm : ClientManager) (o : op)
    (id : byte) (c c' : Client) :
  clients cm !! id = Some c ->
  clients (apply_op cm o) !! id = Some c' ->
  ID c' = ID c /\ IP c' = IP c /\ Key c' = Key c /\ Address c' = Address c
  /\ Connected c' = Connected c /\ LastSeq c <= LastSeq c'.
Proof.
  intros Hl Hl'.
  destruct (apply_op_lookup cm o id c' Hl') as [(c0 & Hc0 & H)|[Hnone _]].
  - rewrite Hl in Hc0. injection Hc0 as <-. exact H.
  - congruence.
Qed.

Lemma surviving_entry_keeps_identity_witness :
  LastSeq example_client
  <= LastSeq (touch example_client 5 100).
Proof.
  refine (proj2 (proj2 (proj2 (proj2 (proj2
            (surviving_entry_keeps_identity
               (clientManager authenticated_server)
               (OpUpdateClientActivity x01 5 100) x01 example_client
               (touch example_client 5 100) _ _))))));
    vm_compute; reflexivity.
Defined.

Lemma run_all_connected (ops : list op) (cm : ClientManager) :
  all_connected cm -> all_connected (run ops cm).
Proof.
  unfold run. revert cm. induction ops as [|o ops IH]; intros cm H; cbn.
  - exact H.
  - apply IH. intros id c' Hl.
    destruct (apply_op_lookup cm o id c' Hl)
      as [(c0 & Hc0 & _ & _ & _ & _ & Hconn & _)|(_ & Hconn & _)];
      [|exact Hconn].
    rewrite Hconn. exact (H _ _ Hc0).
Qed.

Lemma count_connected_all (cs : list Client) :
  forall acc,
    Forall (fun c => Connected c = true) cs ->
    server_status.count_connected cs acc = acc + len cs.
Proof.
  induction cs as [|c cs IH]; intros acc Hall;
    cbn [server_status.count_connected].
  - unfold len. cbn. lia.
  - inversion Hall as [|? ? Hc Hcs]; subst. rewrite Hc, IH by exact Hcs.
    unfold len. cbn [length]. lia.
Qed.

(** X18.  The status of a running server counts every live client as
    connected: after any sequence of peer-table operations on a new table,
    [GetServerStatus] reports "running", the uptime since the start, and a
    number of connected clients equal to the total, which is the number of
    live entries.  Before the start or after the stop it reports "stopped"
    and no client. *)
Theorem GetServerStatus_counts (km : KeyManager) (ops : list op)
    (l : server_status.Lifecycle) (now : Z) :
  let cm := run ops (NewClientManager km) in
  let st := server_status.GetServerStatus l (Some cm) now in
  match server_status.startTime l with
  | Some start =>
      if server_status.stopChan_closed l
      then st = server_status.stopped_status
      else server_status.Status st = "running"%string
           /\ server_status.Uptime st = now - start
           /\ server_status.TotalClients st = Z.of_nat (size (clients cm))
           /\ server_status.ConnectedClients st
              = server_status.TotalClients st
  | None => st = server_status.stopped_status
  end.
Proof.
  intros cm st. subst st. unfold server_status.GetServerStatus.
  destruct (server_status.startTime l) as [start|]; [|reflexivity].
  destruct (server_status.stopChan_closed l); [reflexivity|].
  cbn [server_status.Status server_status.Uptime
       server_status.TotalClients server_status.ConnectedClients].
  assert (Hconn : all_connected cm).
  { apply run_all_connected. intros id c Hl. cbn in Hl.
    rewrite lookup_empty in Hl. discriminate. }
  assert (Hlen : len (server_status.ListClients cm)
                 = Z.of_nat (size (clients cm))).
  { unfold len, server_status.ListClients.
    now rewrite length_fmap, length_map_to_list. }
  repeat split; [exact Hlen|].
  rewrite count_connected_all; [lia|].
  apply Forall_forall. intros c Hin. unfold server_status.ListClients in Hin.
  apply list_elem_of_fmap in Hin as ([id c0] & -> & Hin).
  apply elem_of_map_to_list in Hin. exact (Hconn _ _ Hin).
Qed.
(** ** Further properties of the datapath *)

Lemma handleDataPacket_ProcessPacket `{AEAD} (s : Server) (data : list byte)
    (packet : Packet) (clientAddr : UDPAddr) (now : Z) :
  DecodePacket (versionVars s) data = inl packet ->
  handleDataPacket packet clientAddr now s = (ProcessPacket data now s).2.
Proof.
  intros Hdec. unfold handleDataPacket.
  apply DecodePacket_inl in Hdec as [Hparse _].
  now rewrite (EncodePacket_ParsePacket data packet Hparse).
Qed.

(** X19.  Packets the server drops without a trace.  A datagram that does
    not decode, a Data, Ping or Pong packet whose peer id is not live, and
    a Data, Ping or Pong packet of a live peer whose sequence is not above
    the last accepted one all leave the server exactly as it was: no
    response is sent, nothing reaches the TUN device, the peer table is
    untouched. *)
Theorem processClientPacket_silent_drop `{AEAD} `{Net} (s : Server)
    (data : list byte) (clientAddr : UDPAddr) (randomKey : list byte)
    (now : Z) :
  (forall e, DecodePacket (versionVars s) data = inr e ->
     processClientPacket data clientAddr randomKey now s = s)
  /\ (forall packet,
        DecodePacket (versionVars s) data = inl packet ->
        byte_to_Z (Type_ packet) <> PacketTypeAuth ->
        clients (clientManager s) !! ClientID packet = None ->
        processClientPacket data clientAddr randomKey now s = s)
  /\ (forall packet client,
        DecodePacket (versionVars s) data = inl packet ->
        byte_to_Z (Type_ packet) <> PacketTypeAuth ->
        clients (clientManager s) !! ClientID packet = Some client ->
        Sequence packet <= LastSeq client ->
        processClientPacket data clientAddr randomKey now s = s).
Proof.
  assert (Hgen : forall packet,
    DecodePacket (versionVars s) data = inl packet ->
    byte_to_Z (Type_ packet) <> PacketTypeAuth ->
    UpdateClientActivity (ClientID packet) (Sequence packet) now
      (clientManager s) = (Some ErrClientNotFound, clientManager s)
    \/ (exists c, clients (clientManager s) !! ClientID packet = Some c
        /\ UpdateClientActivity (ClientID packet) (Sequence packet) now
             (clientManager s) = (Some ErrInvalidSequence, clientManager s)) ->
    processClientPacket data clientAddr randomKey now s = s).
  { intros packet Hdec Hty Hupd. unfold processClientPacket. rewrite Hdec.
    destruct (Z.eqb_spec (byte_to_Z (Type_ packet)) PacketTypeAuth);
      [contradiction|].
    destruct (byte_to_Z (Type_ packet) =? PacketTypeData).
    { rewrite (handleDataPacket_ProcessPacket s data packet) by exact Hdec.
      unfold ProcessPacket. rewrite Hdec. unfold GetClient.
      destruct Hupd as [Hupd|(c & Hc & Hupd)].
      - unfold UpdateClientActivity in Hupd.
        destruct (clients (clientManager s) !! ClientID packet) as [c|];
          [|reflexivity].
        destruct (Sequence packet <=? LastSeq c); discriminate.
      - rewrite Hc, Hupd. apply set_clientManager_id. }
    destruct (byte_to_Z (Type_ packet) =? PacketTypePing).
    { unfold handlePingPacket.
      destruct Hupd as [->|(c & _ & ->)]; apply set_clientManager_id. }
    destruct (byte_to_Z (Type_ packet) =? PacketTypePong); [|reflexivity].
    unfold handlePongPacket.
    destruct Hupd as [->|(c & _ & ->)]; apply set_clientManager_id. }
  split; [|split].
  - intros e Hdec. unfold processClientPacket. now rewrite Hdec.
  - intros packet Hdec Hty Hnone. apply (Hgen packet Hdec Hty). left.
    unfold UpdateClientActivity. now rewrite Hnone.
  - intros packet client Hdec Hty Hl Hle. apply (Hgen packet Hdec Hty).
    right. exists client. split; [exact Hl|].
    rewrite (UpdateClientActivity_live _ _ client) by exact Hl.
    destruct (Z.leb_spec (Sequence packet) (LastSeq client)); [reflexivity|lia].
Qed.

(** X20.  A datagram that [ProcessPacket] accepted is refused when it is
    presented again: the second call, at whatever time, returns
    [ErrInvalidSequence] and leaves the server as the first call left it,
    so nothing is written to the TUN device a second time. *)
Theorem ProcessPacket_replay `{AEAD} (s : Server) (data : list byte)
    (now now' : Z) :
  (ProcessPacket data now s).1 = None ->
  ProcessPacket data now' (ProcessPacket data now s).2
  = (Some ErrInvalidSequence, (ProcessPacket data now s).2).
Proof.
  unfold ProcessPacket at 1 3 4.
  destruct (DecodePacket (versionVars s) data) as [packet|] eqn:Hdec;
    [|discriminate].
  unfold GetClient.
  destruct (clients (clientManager s) !! ClientID packet) as [client|] eqn:Hl;
    [|discriminate].
  rewrite (UpdateClientActivity_live _ _ client) by exact Hl.
  destruct (Z.leb_spec (Sequence packet) (LastSeq client)); [discriminate|].
  destruct (DecryptPayload _ _ _) as [plain|]; [|discriminate].
  destruct (WritePacket plain _) as [err tun'] eqn:Hw.
  cbn [fst snd]. intros ->.
  unfold ProcessPacket.
  cbn [versionVars set_tunInterface set_clientManager clientManager].
  rewrite Hdec. unfold GetClient. cbn [clients]. rewrite lookup_insert_eq.
  rewrite (UpdateClientActivity_live _ _ (touch client (Sequence packet) now))
    by (cbn [clients]; apply lookup_insert_eq).
  cbn [touch LastSeq].
  destruct (Z.leb_spec (Sequence packet) (Sequence packet)); [|lia].
  reflexivity.
Qed.

(** X21.  What one run of the egress path can and cannot do.  It never
    changes the peer table and never writes to the TUN device; it takes at
    most the first waiting datagram off the TUN read queue; when it
    returns an error nothing was sent, and when it succeeds exactly one
    UDP datagram was sent. *)
Theorem ProcessOutgoingPacket_frame `{AEAD} `{Net} (s : Server) :
  let r := ProcessOutgoingPacket s in
  clientManager r.2 = clientManager s
  /\ writeQueue (tunInterface r.2) = writeQueue (tunInterface s)
  /\ (readQueue (tunInterface r.2) = readQueue (tunInterface s)
      \/ readQueue (tunInterface r.2) = tail (readQueue (tunInterface s)))
  /\ match r.1 with
     | Some _ => udpConn r.2 = udpConn s
     | None => exists addr wire, udpConn r.2 = udpConn s ++ [(addr, wire)]
     end.
Proof.
  destruct s as [g km cm [cr rq wq] udp].
  unfold ProcessOutgoingPacket, ReadPacket.
  cbn [tunInterface created readQueue writeQueue clientManager udpConn].
  destruct cr; cbn [negb]; [|cbn; auto].
  destruct rq as [|d rest]; [cbn; auto|].
  cbn [set_tunInterface clientManager].
  destruct (determineClient cm d) as [id|]; [|cbn; auto].
  unfold GetClient.
  destruct (clients cm !! id) as [client|]; [|cbn; auto].
  unfold createAndSendPacket.
  destruct (EncryptPayload _ _ _) as [encrypted|]; [|cbn; auto].
  unfold sendToClient.
  destruct (net_ResolveUDPAddr (Address client)) as [addr|]; [|cbn; auto].
  unfold WriteToUDP. destruct (net_WriteToUDP_ok _ _);
    cbn; repeat split; eauto.
Qed.

Lemma ProcessPacket_replay_witness :
  ProcessPacket (H := example_aead) example_data_wire 60
    (ProcessPacket (H := example_aead) example_data_wire 50
       authenticated_server).2
  = (Some ErrInvalidSequence,
     (ProcessPacket (H := example_aead) example_data_wire 50
        authenticated_server).2).
Proof.
  apply (ProcessPacket_replay (H := example_aead)).
  vm_compute. reflexivity.
Defined.

(** X22.  Ping and Pong.  For a Ping of a live peer with a sequence above
    the last accepted one, the server records the activity and sends one
    datagram to the address recorded for the peer (not to the address the
    Ping came from): it decodes to a Pong with the peer's id, the Ping's
    sequence and an empty payload. *)
Theorem handlePingPacket_pong `{Net} (s : Server) (packet : Packet)
    (client : Client) (clientAddr addr : UDPAddr) (now : Z) :
  VersionVars_reachable (versionVars s) ->
  clients (clientManager s) !! ClientID packet = Some client ->
  is_uint32 (Sequence packet) ->
  Sequence packet > LastSeq client ->
  net_ResolveUDPAddr (Address client) = Some addr ->
  (forall data, net_WriteToUDP_ok data addr = true) ->
  let s' := handlePingPacket packet clientAddr now s in
  let pong :=
    {| Magic := MagicBytes; Type_ := x04; ClientID := ClientID packet;
       Sequence := Sequence packet; Length := 0;
       Version := ProtocolVersionByte (versionVars s); Payload := [] |} in
  udpConn s' = udpConn s ++ [(addr, EncodePacket pong)]
  /\ DecodePacket (versionVars s) (EncodePacket pong) = inl pong
  /\ clients (clientManager s') !! ClientID packet
     = Some (touch client (Sequence packet) now)
  /\ tunInterface s' = tunInterface s.
Proof.
  intros Hg Hl Hseq Hgt Hres Hok s' pong. subst s'.
  unfold handlePingPacket.
  rewrite (UpdateClientActivity_live _ _ client) by exact Hl.
  destruct (Z.leb_spec (Sequence packet) (LastSeq client)); [lia|].
  unfold sendPongResponse, GetClient.
  cbn [set_clientManager clientManager clients]. rewrite lookup_insert_eq.
  cbn [touch Address]. rewrite Hres. unfold WriteToUDP. rewrite Hok.
  cbn [snd udpConn versionVars clientManager clients tunInterface
       set_clientManager].
  rewrite lookup_insert_eq.
  split; [reflexivity|]. split; [|split; reflexivity].
  apply DecodePacket_EncodePacket; try exact Hg; try reflexivity.
  - split; [exact Hseq|]. unfold is_uint16. cbn. lia.
  - vm_compute. split; discriminate.
Qed.

Lemma handlePingPacket_pong_witness :
  udpConn
    (handlePingPacket (H := example_net)
       {| Magic := MagicBytes; Type_ := x03; ClientID := x01; Sequence := 3;
          Length := 0; Version := x00; Payload := [] |}
       "198.51.100.20:6000" 100 example_server)
  = [("203.0.113.9:5000"%string,
      EncodePacket
        {| Magic := MagicBytes; Type_ := x04; ClientID := x01; Sequence := 3;
           Length := 0; Version := x00; Payload := [] |})].
Proof.
  refine (proj1 (handlePingPacket_pong (H := example_net) example_server
                   {| Magic := MagicBytes; Type_ := x03; ClientID := x01;
                      Sequence := 3; Length := 0; Version := x00;
                      Payload := [] |}
                   example_client "198.51.100.20:6000"%string
                   "203.0.113.9:5000"%string 100 _ _ _ _ _ _)).
  - apply reach_init.
  - vm_compute. reflexivity.
  - unfold is_uint32. cbn. lia.
  - reflexivity.
  - reflexivity.
  - intros data. reflexivity.
Defined.

Lemma AddClient_succeeds (cm : ClientManager) (key : list byte)
    (address : string) (now : Z) :
  table_invariant cm -> ~ key_in_use cm key ->
  size (clients cm) <> 254%nat ->
  exists i,
    2 <= i <= 255 /\ assignNextIP cm = Sprintf_ip i
    /\ findNextClientID cm <> x00
    /\ AddClient key address now cm =
       (let c := {| ID := findNextClientID cm; IP := assignNextIP cm;
                    Key := key; Address := address; Connected := true;
                    LastSeen := now; LastSeq := 0 |} in
        (inl c,
         {| clients := <[ID c := c]> (clients cm);
            ipToClient := <[IP c := ID c]> (ipToClient cm);
            keyToClient := <[Sprintf_x key := ID c]> (keyToClient cm);
            timeout := timeout cm;
            keyManager := keyManager cm |})).
Proof.
  intros Hinv Hkey H254.
  pose proof (table_invariant_size cm Hinv) as Hsize.
  pose proof (table_invariant_id_available cm Hinv) as Hid.
  pose proof (table_invariant_ip_exhausted cm Hinv) as Hip.
  rewrite (key_in_use_index cm key (proj1 Hinv)) in Hkey.
  destruct (assignNextIP_spec cm) as [[He _]|(i & Hi & Hr & _)];
    [apply Hip in He; contradiction|].
  exists i. split; [exact Hi|]. split; [exact Hr|]. split; [exact Hid|].
  unfold AddClient.
  destruct (Z.leb_spec 256 (Z.of_nat (size (clients cm)))); [lia|].
  destruct (keyToClient cm !! Sprintf_x key) eqn:Hk; [destruct Hkey; eauto|].
  destruct (decide (findNextClientID cm = x00)); [contradiction|].
  destruct (decide (assignNextIP cm = EmptyString)) as [He|_];
    [rewrite Hr in He; now apply Sprintf_ip_nonempty in He|].
  reflexivity.
Qed.

Lemma Sprintf_ip_length (i : Z) :
  2 <= i <= 255 -> (String.length (Sprintf_ip i) <= 10)%nat.
Proof.
  intros Hi.
  assert (Hall : bool_decide
            (Forall (fun j => (String.length (Sprintf_ip j) <= 10)%nat)
               (seqZ 2 254)) = true) by (vm_compute; reflexivity).
  apply bool_decide_eq_true in Hall. rewrite Forall_seqZ in Hall.
  apply Hall. lia.
Qed.

Lemma length_list_byte_of_string (s : string) :
  length (list_byte_of_string s) = String.length s.
Proof.
  unfold list_byte_of_string. induction s as [|a s IHs]; [reflexivity|].
  cbn [list_ascii_of_string map length String.length]. now rewrite IHs.
Qed.

(** X23.  The authentication handshake, end to end.  On a reachable peer
    table that holds fewer than 254 peers, an Auth packet that asks for an
    assignment (id 0, the key being the 32 random bytes drawn) or names a
    registered id (the key being the registry's), with a 32-byte key that
    no live peer holds, admits a peer with the smallest unused id and
    inner IP and sends one Auth response, with sequence 0, to the source
    address.  A client that reads this response through
    [waitForAuthResponse] ends up with exactly that id, that key and that
    inner IP. *)
Theorem auth_handshake `{Net} (s : Server) (packet : Packet)
    (clientAddr : UDPAddr) (randomKey key : list byte) (now : Z)
    (gc : VersionVars) (cl : client.Client) :
  VersionVars_reachable gc ->
  table_invariant (clientManager s) ->
  (ClientID packet = x00 /\ key = randomKey)
  \/ (ClientID packet <> x00
      /\ keys (srv_keyManager s) !! ClientID packet = Some key) ->
  len key = 32 ->
  ~ key_in_use (clientManager s) key ->
  size (clients (clientManager s)) <> 254%nat ->
  (forall data, net_WriteToUDP_ok data clientAddr = true) ->
  let s' := handleAuthPacket packet clientAddr randomKey now s in
  exists c wire,
    clients (clientManager s') !! ID c = Some c
    /\ ID c = findNextClientID (clientManager s)
    /\ IP c = assignNextIP (clientManager s)
    /\ Key c = key /\ Address c = clientAddr /\ LastSeq c = 0
    /\ udpConn s' = udpConn s ++ [(clientAddr, wire)]
    /\ ParsePacket wire =
       inl {| Magic := MagicBytes; Type_ := x02; ClientID := ID c;
              Sequence := 0; Length := len key + len (list_byte_of_string (IP c));
              Version := ProtocolVersionByte (versionVars s);
              Payload := key ++ list_byte_of_string (IP c) |}
    /\ client.waitForAuthResponse gc (Some wire) cl =
       (None,
        {| client.serverAddr := client.serverAddr cl;
           client.clientID := ID c;
           client.key := key;
           client.assignedIP := IP c;
           client.tunInterface := client.tunInterface cl;
           client.udpConn := client.udpConn cl;
           client.sequence := client.sequence cl;
           client.connected := client.connected cl |}).
Proof.
  intros Hgc Hinv Hsel Hlen Hfree H254 Hok s'.
  destruct (AddClient_succeeds (clientManager s) key clientAddr now
              Hinv Hfree H254) as (i & Hi & Hip & Hid & Hadd).
  set (c := {| ID := findNextClientID (clientManager s);
               IP := assignNextIP (clientManager s);
               Key := key; Address := clientAddr; Connected := true;
               LastSeen := now; LastSeq := 0 |}) in *.
  cbv zeta in Hadd.
  set (payload := key ++ list_byte_of_string (IP c)).
  set (resp := {| Magic := MagicBytes; Type_ := x02; ClientID := ID c;
                  Sequence := 0; Length := uint16 (len payload);
                  Version := ProtocolVersionByte (versionVars s);
                  Payload := payload |}).
  assert (Hiplen : (String.length (IP c) <= 10)%nat).
  { subst c. cbn [IP]. rewrite Hip. now apply Sprintf_ip_length. }
  assert (Hplen : len payload = len key + len (list_byte_of_string (IP c))).
  { subst payload. unfold len. rewrite length_app. lia. }
  assert (Hpsmall : 32 <= len payload <= 42).
  { rewrite Hplen. unfold len in *. rewrite length_list_byte_of_string. lia. }
  assert (Hs' : s' = {| versionVars := versionVars s;
                        srv_keyManager := srv_keyManager s;
                        clientManager :=
                          {| clients := <[ID c := c]> (clients (clientManager s));
                             ipToClient :=
                               <[IP c := ID c]> (ipToClient (clientManager s));
                             keyToClient :=
                               <[Sprintf_x key := ID c]>
                                 (keyToClient (clientManager s));
                             timeout := timeout (clientManager s);
                             keyManager := keyManager (clientManager s) |};
                        tunInterface := tunInterface s;
                        udpConn := udpConn s ++ [(clientAddr, EncodePacket resp)] |}).
  { subst s'. unfold handleAuthPacket.
    assert (Hselected :
      (if decide (ClientID packet = x00)
       then if decide (findNextClientID (clientManager s) = x00)
            then None
            else Some (findNextClientID (clientManager s), randomKey)
       else if negb (HasClient (srv_keyManager s) (ClientID packet))
            then None
            else match GetClientKey (srv_keyManager s) (ClientID packet) with
                 | inl k => Some (ClientID packet, k)
                 | inr _ => None
                 end)
      = Some ((if decide (ClientID packet = x00)
               then findNextClientID (clientManager s)
               else ClientID packet), key)).
    { destruct Hsel as [[H0 Hk]|[Hn0 Hreg]];
        destruct (decide (ClientID packet = x00)); try contradiction.
      - destruct (decide (findNextClientID (clientManager s) = x00));
          [contradiction|]. now rewrite Hk.
      - unfold HasClient, GetClientKey. rewrite Hreg.
        now rewrite bool_decide_eq_true_2 by eauto. }
    cbv zeta. rewrite Hselected, Hadd.
    unfold sendAuthResponse, WriteToUDP. rewrite Hok.
    cbn [snd set_clientManager versionVars srv_keyManager clientManager
         tunInterface udpConn].
    assert (Htake : take 32 (key ++ repeat x00 32) = key).
    { rewrite take_app_length'; [reflexivity|]. unfold len in Hlen. lia. }
    rewrite Htake. reflexivity. }
  assert (Hu16 : uint16 (len payload) = len payload).
  { unfold uint16. apply Z.mod_small. lia. }
  assert (Hparse : ParsePacket (EncodePacket resp) = inl resp).
  { apply ParsePacket_EncodePacket. split; [unfold is_uint32; cbn; lia|].
    apply uint16_range. }
  assert (Hdec : DecodePacket gc (EncodePacket resp) = inl resp).
  { unfold DecodePacket. rewrite Hparse.
    rewrite ValidatePacket_accepts; auto.
    vm_compute. split; discriminate. }
  exists c, (EncodePacket resp). rewrite Hs'.
  cbn [clientManager clients udpConn]. rewrite lookup_insert_eq.
  repeat split; try reflexivity.
  - rewrite Hparse. subst resp. rewrite Hu16, Hplen. reflexivity.
  - unfold client.waitForAuthResponse.
    rewrite take_ge.
    2:{ assert (Hl12 : len (EncodePacket resp) = 12 + len payload).
        { unfold len, EncodePacket. cbn [Magic MagicBytes resp]. cbn.
          rewrite ?length_app. cbn. lia. }
        unfold len in *. lia. }
    rewrite Hdec. cbn [Type_ resp Payload].
    change (negb (byte_to_Z x02 =? PacketTypeAuth)) with false. cbn iota.
    destruct (Z.ltb_spec (len payload) 32); [lia|].
    assert (Ht : take 32 payload = key).
    { subst payload. rewrite take_app_length'; [reflexivity|].
      unfold len in Hlen. lia. }
    assert (Hd : drop 32 payload = list_byte_of_string (IP c)).
    { subst payload. rewrite drop_app_length'; [reflexivity|].
      unfold len in Hlen. lia. }
    rewrite Ht, Hd, string_of_list_byte_of_string. reflexivity.
Qed.

Lemma auth_handshake_witness :
  exists c wire,
    udpConn authenticated_server = [("203.0.113.9:5000"%string, wire)]
    /\ ID c = x01 /\ IP c = "10.0.0.2"%string
    /\ fst (client.waitForAuthResponse VersionVars_init (Some wire)
              (client.NewClient "198.51.100.1:1194")) = None.
Proof.
  destruct (auth_handshake (H := example_net) fresh_server auth_request
              "203.0.113.9:5000"%string [] example_key 0 VersionVars_init
              (client.NewClient "198.51.100.1:1194"))
    as (c & wire & _ & Hid & Hip & _ & _ & _ & Hudp & _ & Hwait).
  - apply reach_init.
  - apply NewClientManager_invariant.
  - right. split; [discriminate|reflexivity].
  - reflexivity.
  - intros (id & c & Hl & _). cbn in Hl. rewrite lookup_empty in Hl.
    discriminate.
  - vm_compute. discriminate.
  - intros data. reflexivity.
  - exists c, wire. split; [exact Hudp|]. split; [rewrite Hid; reflexivity|].
    split; [rewrite Hip; reflexivity|]. now rewrite Hwait.
Defined.

(** X24.  A datagram from a client reaches the server's TUN device.  A
    client that holds a 32-byte key and a 32-bit sequence sends, for an IP
    datagram read from its TUN device, one Data packet and then advances
    its sequence by one.  If the server has a live entry for the client's
    id with the same key and a smaller last accepted sequence, and the
    cipher opens what it sealed, [ProcessPacket] accepts those bytes:
    exactly the IP datagram is appended to the server's TUN write queue,
    the entry records the sequence and the time, and nothing is sent back. *)
Theorem data_delivery `{AEAD} `{client.Conn} (s : Server) (gc : VersionVars)
    (cl : client.Client) (datagram : list byte) (entry : Client) (now : Z) :
  (forall k n m, aead_Open k n (aead_Seal k n m) = Some m) ->
  VersionVars_reachable (versionVars s) ->
  len (client.key cl) = 32 ->
  is_uint32 (client.sequence cl) ->
  (forall data, client.conn_Write_ok data = true) ->
  clients (clientManager s) !! client.clientID cl = Some entry ->
  Key entry = client.key cl ->
  LastSeq entry < client.sequence cl ->
  created (tunInterface s) = true ->
  let cl' := client.processTUNPacket gc datagram cl in
  exists wire,
    client.udpConn cl' = client.udpConn cl ++ [wire]
    /\ client.sequence cl' = uint32 (client.sequence cl + 1)
    /\ (ProcessPacket wire now s).1 = None
    /\ writeQueue (tunInterface (ProcessPacket wire now s).2)
       = writeQueue (tunInterface s) ++ [datagram]
    /\ clients (clientManager (ProcessPacket wire now s).2)
         !! client.clientID cl
       = Some (touch entry (client.sequence cl) now)
    /\ udpConn (ProcessPacket wire now s).2 = udpConn s.
Proof.
  intros Haead Hg Hkey Hseq Hw Hl Hk Hlt Hcr cl'.
  set (sealed := aead_Seal (client.key cl)
                   (GenerateNonce (client.sequence cl)) datagram).
  set (p := CreateDataPacket gc (client.clientID cl) (client.sequence cl)
              sealed).
  exists (EncodePacket p).
  assert (Hcl' : cl' = client.set_sequence (uint32 (client.sequence cl + 1))
                         (client.set_udpConn
                            (client.udpConn cl ++ [EncodePacket p]) cl)).
  { subst cl'. unfold client.processTUNPacket, EncryptPayload, KeySize.
    rewrite Hkey. cbn [Z.eqb Pos.eqb negb]. fold sealed. fold p.
    unfold client.Write. rewrite Hw. reflexivity. }
  assert (Hdec : DecodePacket (versionVars s) (EncodePacket p) = inl p).
  { apply DecodePacket_EncodePacket; try exact Hg; try reflexivity.
    - split; [exact Hseq|apply uint16_range].
    - vm_compute. split; discriminate. }
  assert (Hrun : ProcessPacket (EncodePacket p) now s =
                 (None,
                  set_tunInterface
                    {| created := true;
                       readQueue := readQueue (tunInterface s);
                       writeQueue := writeQueue (tunInterface s) ++ [datagram] |}
                    (set_clientManager
                       {| clients :=
                            <[client.clientID cl :=
                                touch entry (client.sequence cl) now]>
                              (clients (clientManager s));
                          ipToClient := ipToClient (clientManager s);
                          keyToClient := keyToClient (clientManager s);
                          timeout := timeout (clientManager s);
                          keyManager := keyManager (clientManager s) |} s))).
  { unfold ProcessPacket. rewrite Hdec. unfold GetClient.
    cbn [p CreateDataPacket ClientID Sequence Payload]. rewrite Hl.
    rewrite (UpdateClientActivity_live _ _ entry) by exact Hl.
    destruct (Z.leb_spec (client.sequence cl) (LastSeq entry)); [lia|].
    unfold DecryptPayload, KeySize. rewrite Hk, Hkey.
    cbn [Z.eqb Pos.eqb negb]. subst sealed. rewrite Haead.
    unfold WritePacket. cbn [set_clientManager tunInterface].
    rewrite Hcr. reflexivity. }
  rewrite Hcl', Hrun.
  cbn [fst snd client.udpConn client.sequence client.set_sequence
       client.set_udpConn set_tunInterface set_clientManager tunInterface
       writeQueue clientManager clients udpConn].
  rewrite lookup_insert_eq. repeat split; reflexivity.
Qed.

Lemma example_aead_opens (k n m : list byte) :
  example_Open k n (example_Seal k n m) = Some m.
Proof.
  unfold example_Open, example_Seal.
  assert (Htag : length (example_tag k n) = 16%nat).
  { unfold example_tag. rewrite length_take, !length_app, repeat_length. lia. }
  rewrite length_app, Htag, length_fmap.
  replace (length m + 16 - 16)%nat with (length (complement <$> m))
    by (rewrite length_fmap; lia).
  rewrite drop_app_length, take_app_length.
  rewrite decide_True by (split; [lia|reflexivity]).
  f_equal. rewrite <- list_fmap_compose.
  rewrite <- (list_fmap_id m) at 2. apply list_fmap_ext.
  intros _ b _. destruct b; reflexivity.
Qed.

Lemma data_delivery_witness :
  exists wire,
    writeQueue
      (tunInterface
         (ProcessPacket (H := example_aead) wire 50 authenticated_server).2)
    = [example_datagram [x01]].
Proof.
  destruct (data_delivery (H := example_aead) (H0 := example_conn)
              authenticated_server VersionVars_init example_vpn_client
              (example_datagram [x01]) example_client 50)
    as (wire & _ & _ & _ & Hq & _).
  - intros k n m. apply example_aead_opens.
  - apply reach_init.
  - reflexivity.
  - unfold is_uint32. cbn. lia.
  - intros data. reflexivity.
  - vm_compute. reflexivity.
  - reflexivity.
  - cbn. lia.
  - reflexivity.
  - exists wire. exact Hq.
Defined.



(** *** The configuration file written by the command line *)

Lemma mark_used_lookup (cs : list ClientConfig) :
  forall (used : gmap byte bool) (i : byte),
    default false (cli.mark_used cs used !! i) = true
    <-> (i ∈ cfg_ID <$> cs) \/ default false (used !! i) = true.
Proof.
  induction cs as [|c cs IH]; intros used i; cbn [cli.mark_used fmap list_fmap].
  - rewrite elem_of_nil. tauto.
  - rewrite IH, elem_of_cons.
    destruct (decide (cfg_ID c = i)) as [<-|Hne].
    + rewrite lookup_insert_eq. cbn. tauto.
    + rewrite lookup_insert_ne by exact Hne. split; [tauto|].
      intros [[Heq|?]|?]; auto; congruence.
Qed.

Lemma cli_findNextClientID_loop_spec (used : gmap byte bool) (fuel : nat) :
  forall k : Z,
    1 <= k <= 256 -> 257 <= Z.of_nat fuel + k ->
    (forall j : byte, 1 <= byte_to_Z j < k ->
       default false (used !! j) = true) ->
    let r := cli.findNextClientID_loop fuel (Z_to_byte k) used in
    (r = x00 /\ forall j : byte, j <> x00 -> default false (used !! j) = true)
    \/ (r <> x00 /\ default false (used !! r) = false
        /\ forall j : byte, 1 <= byte_to_Z j < byte_to_Z r ->
             default false (used !! j) = true).
Proof.
  induction fuel as [|fuel IH]; intros k Hk Hfuel Hbelow; [lia|].
  cbn [cli.findNextClientID_loop].
  destruct (decide (Z_to_byte k = x00)) as [Hz|Hnz].
  - left. split; [reflexivity|]. intros j Hj. apply Hbelow.
    assert (k = 256).
    { apply (f_equal byte_to_Z) in Hz. rewrite byte_to_Z_to_byte in Hz.
      change (byte_to_Z x00) with 0 in Hz.
      destruct (Z.eq_dec k 256); [assumption|].
      rewrite Z.mod_small in Hz by lia. lia. }
    subst k. pose proof (byte_to_Z_range j).
    assert (byte_to_Z j <> 0).
    { intros H0. apply Hj. apply byte_to_Z_inj. exact H0. }
    lia.
  - assert (Hk' : k <= 255).
    { destruct (Z.eq_dec k 256) as [->|]; [|lia]. now destruct Hnz. }
    assert (Hbk : byte_to_Z (Z_to_byte k) = k).
    { rewrite byte_to_Z_to_byte. apply Z.mod_small. lia. }
    destruct (default false (used !! Z_to_byte k)) eqn:Hl; cbn [negb].
    + rewrite Hbk. apply IH; [lia|lia|].
      intros j Hj. destruct (Z.eq_dec (byte_to_Z j) k) as [Hjk|Hjk].
      * rewrite <- Hjk, Z_to_byte_to_Z in Hl. exact Hl.
      * apply Hbelow. lia.
    + right. split; [assumption|]. split; [assumption|].
      rewrite Hbk. exact Hbelow.
Qed.

Lemma cli_findNextClientID_spec (cs : list ClientConfig) :
  let r := cli.findNextClientID cs in
  (r = x00 /\ forall j : byte, j <> x00 -> j ∈ (cfg_ID <$> cs))
  \/ (r <> x00 /\ (r ∉ cfg_ID <$> cs)
      /\ forall j : byte, 1 <= byte_to_Z j < byte_to_Z r ->
           j ∈ (cfg_ID <$> cs)).
Proof.
  assert (Hm : forall i, default false (cli.mark_used cs ∅ !! i) = true
                         <-> i ∈ (cfg_ID <$> cs)).
  { intros i. rewrite mark_used_lookup, lookup_empty. cbn. split; [|tauto].
    intros [?|?]; [assumption|discriminate]. }
  unfold cli.findNextClientID. change x01 with (Z_to_byte 1).
  destruct (cli_findNextClientID_loop_spec (cli.mark_used cs ∅) 256 1)
    as [[Hr Hall]|(Hr & Hfree & Hsm)]; [lia|lia|intros j Hj; lia| |].
  - left. split; [exact Hr|]. intros j Hj. now apply Hm, Hall.
  - right. split; [exact Hr|]. split.
    + intros Hin. apply Hm in Hin. congruence.
    + intros j Hj. now apply Hm, Hsm.
Qed.

Lemma generateKey_loadable (random : option (list byte)) (key : string)
    (id : byte) :
  cli.generateKey random = Some key ->
  loadable {| cfg_ID := id; cfg_Key := key |}.
Proof.
  unfold cli.generateKey. destruct random as [bytes|]; [|discriminate].
  intros [= <-]. exists (take 32 (bytes ++ repeat x00 32)). cbn [cfg_Key].
  split.
  - unfold hex_DecodeString, hex.EncodeToString.
    rewrite list_byte_of_string_of_list_byte. apply hex_Decode_Encode.
  - unfold len. rewrite length_take, length_app, repeat_length. lia.
Qed.

Lemma remove_first_ok (id : byte) (cs cs' : list ClientConfig) :
  cli.remove_first id cs = Some cs' ->
  clients_list_ok cs ->
  clients_list_ok cs' /\ (id ∉ cfg_ID <$> cs')
  /\ (forall c, c ∈ cs -> cfg_ID c <> id -> c ∈ cs').
Proof.
  revert cs'. induction cs as [|c cs IH]; intros cs' Hrem (Hnd & H0 & Hall);
    cbn [cli.remove_first] in Hrem; [discriminate|].
  cbn [fmap list_fmap] in Hnd, H0. apply NoDup_cons in Hnd as [Hc Hnd].
  apply not_elem_of_cons in H0 as [Hc0 H0].
  inversion Hall as [|? ? Hlc Hlcs]; subst.
  destruct (decide (cfg_ID c = id)) as [<-|Hne].
  - injection Hrem as <-. split; [repeat split; assumption|].
    split; [exact Hc|]. intros c' Hin Hne.
    apply elem_of_cons in Hin as [->|Hin]; [contradiction|exact Hin].
  - destruct (cli.remove_first id cs) as [rest|] eqn:Hr; [|discriminate].
    injection Hrem as <-.
    destruct (IH rest eq_refl (conj Hnd (conj H0 Hlcs)))
      as ((Hnd' & H0' & Hall') & Hid & Hkeep).
    assert (Hsub : forall j, j ∈ (cfg_ID <$> rest) -> j ∈ (cfg_ID <$> cs)).
    { clear -Hr. revert rest Hr. induction cs as [|d cs IHcs]; intros rest Hr;
        cbn [cli.remove_first] in Hr; [discriminate|].
      destruct (decide (cfg_ID d = id)).
      - injection Hr as <-. intros j Hj. cbn. now apply list_elem_of_further.
      - destruct (cli.remove_first id cs) as [r|]; [|discriminate].
        injection Hr as <-. intros j Hj. cbn in *.
        apply elem_of_cons in Hj as [->|Hj]; [apply list_elem_of_here|].
        apply list_elem_of_further. now apply (IHcs r). }
    split; [|split].
    + repeat split.
      * cbn. apply NoDup_cons. split; [|exact Hnd']. intros Hin. auto.
      * cbn. apply not_elem_of_cons. auto.
      * constructor; assumption.
    + cbn. apply not_elem_of_cons. split; [congruence|exact Hid].
    + intros c' Hin Hne'. apply elem_of_cons in Hin as [->|Hin];
        [apply list_elem_of_here|]. apply list_elem_of_further. auto.
Qed.

Lemma last_key_unused (id : byte) (cs : list ClientConfig) :
  id ∉ (cfg_ID <$> cs) -> last_key id cs = None.
Proof.
  induction cs as [|c cs IH]; intros Hid; cbn [last_key]; [reflexivity|].
  cbn [fmap list_fmap] in Hid. apply not_elem_of_cons in Hid as [Hne Hid].
  rewrite (IH Hid). destruct (decide (cfg_ID c = id)); congruence.
Qed.

Lemma last_key_NoDup (cs : list ClientConfig) (c : ClientConfig)
    (key : list byte) :
  NoDup (cfg_ID <$> cs) -> c ∈ cs ->
  hex_DecodeString (cfg_Key c) = inl key ->
  last_key (cfg_ID c) cs = Some key.
Proof.
  induction cs as [|d cs IH]; intros Hnd Hin Hkey;
    [now apply elem_of_nil in Hin|].
  cbn [fmap list_fmap] in Hnd. apply NoDup_cons in Hnd as [Hd Hnd].
  cbn [last_key]. apply elem_of_cons in Hin as [->|Hin].
  - rewrite (last_key_unused _ _ Hd).
    destruct (decide (cfg_ID d = cfg_ID d)); [|congruence].
    now rewrite Hkey.
  - now rewrite (IH Hnd Hin Hkey).
Qed.

Lemma cli_AddClient_cases `{cli.Disk} (random : option (list byte))
    (f : cli.File) :
  match cli.AddClient random f with
  | (inl (id, key), f') =>
      exists config,
        f = Some config
        /\ f' = Some {| cli.Server_Port := cli.Server_Port config;
                        cli.Server_TimeoutMinutes :=
                          cli.Server_TimeoutMinutes config;
                        cli.Clients :=
                          cli.Clients config
                          ++ [{| cfg_ID := id; cfg_Key := key |}] |}
        /\ id = cli.findNextClientID (cli.Clients config)
        /\ id <> x00
        /\ cli.generateKey random = Some key
  | (inr _, f') => f' = f
  end.
Proof.
  unfold cli.AddClient, cli.loadConfig, cli.writeConfig.
  destruct f as [config|]; [|reflexivity].
  destruct (cli.generateKey random) as [key|]; [|reflexivity].
  destruct (decide (cli.findNextClientID (cli.Clients config) = x00));
    [reflexivity|].
  destruct (cli.os_WriteFile_ok _); [|reflexivity].
  exists config. auto.
Qed.


Lemma cli_apply_ok `{cli.Disk} (f : cli.File) (o : cli_op) :
  file_ok f -> file_ok (cli_apply f o).
Proof.
  intros Hf. destruct o as [port t|random|id]; cbn [cli_apply].
  - unfold cli.Setup, cli.writeConfig. destruct f as [config|]; [exact Hf|].
    destruct (cli.os_WriteFile_ok _); cbn; [|exact I].
    repeat split; [apply NoDup_nil_2|apply not_elem_of_nil|constructor].
  - pose proof (cli_AddClient_cases random f) as Hc.
    destruct (cli.AddClient random f) as [[[id key]|e] f']; cbn [snd];
      [|now subst f'].
    destruct Hc as (config & -> & -> & Hid & Hnz & Hkey).
    destruct Hf as (Hnd & H0 & Hall). cbn [file_ok cli.Clients].
    destruct (cli_findNextClientID_spec (cli.Clients config))
      as [[Hr _]|(_ & Hfree & _)]; [congruence|]. rewrite <- Hid in Hfree.
    unfold clients_list_ok. rewrite fmap_app. cbn [fmap list_fmap cfg_ID].
    split; [|split].
    + apply NoDup_app. split; [exact Hnd|]. split; [|apply NoDup_singleton].
      intros j Hj Hj'. apply list_elem_of_singleton in Hj'. congruence.
    + rewrite elem_of_app, list_elem_of_singleton. intros [?|?]; auto.
    + apply Forall_app. split; [exact Hall|]. constructor; [|constructor].
      exact (generateKey_loadable random key id Hkey).
  - unfold cli.RemoveClient, cli.loadConfig, cli.writeConfig.
    destruct f as [config|]; [|exact Hf].
    destruct (cli.remove_first id (cli.Clients config)) as [cs'|] eqn:Hr;
      [|exact Hf].
    destruct (cli.os_WriteFile_ok _); [|exact Hf]. cbn.
    exact (proj1 (remove_first_ok id _ cs' Hr Hf)).
Qed.

Lemma cli_run_ok `{cli.Disk} (ops : list cli_op) :
  forall f, file_ok f -> file_ok (cli_run ops f).
Proof.
  unfold cli_run. induction ops as [|o ops IH]; intros f Hf; [exact Hf|].
  cbn [fold_left]. apply IH, cli_apply_ok, Hf.
Qed.

(** X27.  A configuration file that the command line created with [Setup]
    and changed only through its [AddClient] and [RemoveClient] always
    loads: its entries carry pairwise distinct ids, none of them 0, the
    loop of [LoadKeysFromConfig] returns no error on its clients list, and
    the registry then holds, under each listed id, the 32 bytes of that
    entry's key and nothing under any other id. *)
Theorem cli_written_config_loads `{cli.Disk} (ops : list cli_op) :
  match cli_run ops None with
  | None => True
  | Some config =>
      let cs := cli.Clients config in
      NoDup (cfg_ID <$> cs)
      /\ (x00 ∉ cfg_ID <$> cs)
      /\ exists ks,
           load_clients cs ∅ = (None, ks)
           /\ (forall c, c ∈ cs ->
                 exists key, hex_DecodeString (cfg_Key c) = inl key
                             /\ len key = 32
                             /\ ks !! cfg_ID c = Some key)
           /\ (forall id, (id ∉ cfg_ID <$> cs) -> ks !! id = None)
  end.
Proof.
  pose proof (cli_run_ok ops None I) as Hok.
  destruct (cli_run ops None) as [config|]; [|exact I].
  destruct Hok as (Hnd & H0 & Hall). cbn zeta.
  split; [exact Hnd|]. split; [exact H0|].
  destruct (load_clients_spec (cli.Clients config) ∅) as [Hiff Hkeys].
  apply Hiff in Hall as Hnone. specialize (Hkeys Hnone).
  destruct (load_clients (cli.Clients config) ∅) as [err ks] eqn:Hload.
  cbn [fst snd] in *. subst err. exists ks. split; [reflexivity|]. split.
  - intros c Hin. rewrite Forall_forall in Hall.
    destruct (Hall c Hin) as (key & Hkey & Hlen). exists key.
    split; [exact Hkey|]. split; [exact Hlen|].
    now rewrite Hkeys, (last_key_NoDup _ c key Hnd Hin Hkey).
  - intros id Hid. rewrite Hkeys, (last_key_unused _ _ Hid).
    apply lookup_empty.
Qed.

(** ** Further properties of the client *)


(** X29.  The client accepts a replayed Data packet.  A Data packet whose
    payload alone is sealed under the client's 32-byte key, with the
    packet's sequence as nonce, is delivered to the client's TUN device
    whatever its id and sequence are, and delivered again when the same
    bytes arrive a second time; the client's sequence and its socket are
    untouched. *)
Theorem client_accepts_replay `{AEAD} (g gs : VersionVars) (id : byte)
    (n : Z) (m : list byte) (c : client.Client) :
  (forall k nonce msg, aead_Open k nonce (aead_Seal k nonce msg) = Some msg) ->
  VersionVars_reachable g ->
  VersionVars_reachable gs ->
  is_uint32 n ->
  len (client.key c) = 32 ->
  created (client.tunInterface c) = true ->
  let wire :=
    EncodePacket
      (CreateDataPacket gs id n
         (aead_Seal (client.key c) (GenerateNonce n) m)) in
  let c1 := client.processServerPacket g wire c in
  let c2 := client.processServerPacket g wire c1 in
  writeQueue (client.tunInterface c1)
    = writeQueue (client.tunInterface c) ++ [m]
  /\ writeQueue (client.tunInterface c2)
     = writeQueue (client.tunInterface c) ++ [m; m]
  /\ client.sequence c2 = client.sequence c
  /\ client.udpConn c2 = client.udpConn c.
Proof.
  intros Hopen Hg Hgs Hn Hkey Hcr wire c1 c2.
  set (p := CreateDataPacket gs id n
              (aead_Seal (client.key c) (GenerateNonce n) m)) in *.
  assert (Hdec : DecodePacket g wire = inl p).
  { apply DecodePacket_EncodePacket; [exact Hg| | | |]; try reflexivity.
    - split; [exact Hn|apply uint16_range].
    - vm_compute. split; discriminate. }
  assert (Hstep : forall d : client.Client,
    client.key d = client.key c ->
    created (client.tunInterface d) = true ->
    client.processServerPacket g wire d
    = client.set_tunInterface
        {| created := true;
           readQueue := readQueue (client.tunInterface d);
           writeQueue := writeQueue (client.tunInterface d) ++ [m] |} d).
  { intros d Hkd Hcd. unfold client.processServerPacket. rewrite Hdec.
    change (byte_to_Z (Type_ p) =? PacketTypeData) with true. cbn iota.
    unfold client.handleDataPacket, DecryptPayload. rewrite Hkd, Hkey.
    change (negb (32 =? KeySize)) with false. cbn iota.
    cbn [p CreateDataPacket Payload Sequence]. rewrite Hopen.
    unfold WritePacket. rewrite Hcd. reflexivity. }
  assert (E1 : c1 = client.set_tunInterface
                      {| created := true;
                         readQueue := readQueue (client.tunInterface c);
                         writeQueue :=
                           writeQueue (client.tunInterface c) ++ [m] |} c)
    by (apply Hstep; [reflexivity|exact Hcr]).
  assert (E2 : c2 = client.set_tunInterface
                      {| created := true;
                         readQueue := readQueue (client.tunInterface c1);
                         writeQueue :=
                           writeQueue (client.tunInterface c1) ++ [m] |} c1)
    by (apply Hstep; rewrite E1; reflexivity).
  rewrite E2, E1. cbn. rewrite <- app_assoc. auto.
Qed.

Lemma client_accepts_replay_witness :
  writeQueue
    (client.tunInterface
       (client.processServerPacket (H := example_aead) VersionVars_init
          example_data_wire
          (client.processServerPacket (H := example_aead) VersionVars_init
             example_data_wire example_vpn_client)))
  = [example_datagram [x01]; example_datagram [x01]].
Proof.
  destruct (client_accepts_replay (H := example_aead) VersionVars_init
              VersionVars_init x01 1 (example_datagram [x01])
              example_vpn_client) as (_ & Hq & _).
  - intros k nonce msg. apply example_aead_opens.
  - apply reach_init.
  - apply reach_init.
  - unfold is_uint32. lia.
  - reflexivity.
  - reflexivity.
  - exact Hq.
Defined.

(** X30.  The authentication request reaches the Auth handler.  The bytes
    that [sendAuthRequest] writes carry an Auth packet with the client's id
    and sequence and an empty payload; the server's
    [processClientPacket] decodes them and handles them as
    [handleAuthPacket] handles that packet.  Sending the request does not
    advance the client's sequence. *)
Theorem sendAuthRequest_dispatch `{AEAD} `{Net} `{client.Conn}
    (s : Server) (gc : VersionVars) (cl : client.Client)
    (clientAddr : UDPAddr) (randomKey : list byte) (now : Z) :
  VersionVars_reachable (versionVars s) ->
  VersionVars_reachable gc ->
  is_uint32 (client.sequence cl) ->
  (client.sendAuthRequest gc cl).1 = true ->
  exists wire,
    client.sendAuthRequest gc cl
      = (true, client.set_udpConn (client.udpConn cl ++ [wire]) cl)
    /\ len wire = 12
    /\ processClientPacket wire clientAddr randomKey now s
       = handleAuthPacket
           (CreateAuthPacket gc (client.clientID cl) (client.sequence cl) [])
           clientAddr randomKey now s.
Proof.
  intros Hs Hgc Hseq Hsent.
  set (p := CreateAuthPacket gc (client.clientID cl) (client.sequence cl) []).
  exists (EncodePacket p). split; [|split].
  - unfold client.sendAuthRequest, client.Write in *. fold p in Hsent |- *.
    destruct (client.conn_Write_ok (EncodePacket p)); [reflexivity|].
    discriminate.
  - reflexivity.
  - unfold processClientPacket.
    rewrite DecodePacket_EncodePacket; [reflexivity|exact Hs| | | |];
      try reflexivity.
    + split; [exact Hseq|apply uint16_range].
    + vm_compute. split; discriminate.
Qed.

Lemma sendAuthRequest_dispatch_witness :
  exists wire,
    client.sendAuthRequest (H := example_conn) VersionVars_init
      (client.NewClient "198.51.100.1:1194")
    = (true,
       client.set_udpConn [wire] (client.NewClient "198.51.100.1:1194"))
    /\ processClientPacket (H := example_aead) (H0 := example_net) wire
         "203.0.113.9:5000"%string example_key 0 fresh_server
       = handleAuthPacket (H := example_net)
           (CreateAuthPacket VersionVars_init x00 1 [])
           "203.0.113.9:5000"%string example_key 0 fresh_server.
Proof.
  destruct (sendAuthRequest_dispatch (H := example_aead) (H0 := example_net)
              (H1 := example_conn) fresh_server VersionVars_init
              (client.NewClient "198.51.100.1:1194")
              "203.0.113.9:5000"%string example_key 0)
    as (wire & Hw & _ & Hp).
  - apply reach_init.
  - apply reach_init.
  - unfold is_uint32. cbn. lia.
  - reflexivity.
  - exists wire. split; [exact Hw|exact Hp].
Defined.

